(** * jeni: dependency injection through annotations

    A shallow embedding of [jeni.py] (the [Injector], its providers and the
    annotation-driven argument binder) and of [jeni_decoration.py] (the
    [DecoratingInjector]), with the properties of the design document stated
    and settled over it.

    Conventions of the embedding.
    - Python objects used as notes, names and provided values are the
      inductive type [value].
    - A Python [dict] is an insertion-ordered association list ([dict]):
      assigning to a present key keeps its position, assigning to a new key
      appends it, and iteration follows that order.
    - Methods of an [Injector] instance are state transformers over the
      record [Injector] (the fields [closed], [instances], [values] of
      [Injector.__init__], and the chronological record [calls] of the
      operations performed on providers, kept to state how often and in
      which order user code is entered).
    - User code (provider classes, generator functions, factories and
      decoration steps) is given by its observable behaviour.
    - [Injector.resolve] recurses through the dependencies of providers; the
      recursion is bounded by a fuel argument and [OutOfFuel] is kept apart
      from every Python exception. *)

From Stdlib Require Import List String Ascii ZArith Bool Lia Arith.
Import ListNotations.
Local Open Scope string_scope.
Local Open Scope list_scope.

(** ** Python values *)

#[local] Unset Elimination Schemes.
Inductive value : Type :=
| VNone
| VInt (z : Z)
| VStr (s : string)
| VTuple (items : list value).
#[local] Set Elimination Schemes.

Definition value_eq_dec : forall a b : value, {a = b} + {a <> b}.
Proof.
  fix IH 1.
  intros a b; destruct a as [|z|s|l], b as [|z'|s'|l'];
    try (right; discriminate); try (left; reflexivity).
  - destruct (Z.eq_dec z z') as [->|N]; [left; reflexivity | right; congruence].
  - destruct (string_dec s s') as [->|N]; [left; reflexivity | right; congruence].
  - destruct (list_eq_dec IH l l') as [->|N]; [left; reflexivity | right; congruence].
Defined.

(** [x is None] *)
Definition is_None (v : value) : bool :=
  match v with VNone => true | _ => false end.

(** ** Decidable equality on keys *)

Class EqDec (K : Type) := eq_dec : forall x y : K, {x = y} + {x <> y}.

#[global] Instance value_EqDec : EqDec value := value_eq_dec.
#[global] Instance string_EqDec : EqDec string := string_dec.
#[global] Instance pair_EqDec {A B} `{EqDec A} `{EqDec B} : EqDec (A * B).
Proof.
  intros [a b] [a' b'].
  destruct (eq_dec a a') as [->|N]; [|right; congruence].
  destruct (eq_dec b b') as [->|N]; [left; reflexivity | right; congruence].
Defined.

(** ** Insertion-ordered dictionaries *)

Section Dict.
Context {K V : Type} `{EqDec K}.

Definition dict := list (K * V).

(** [d.get(k)] *)
Fixpoint dict_get (d : dict) (k : K) : option V :=
  match d with
  | [] => None
  | (k', v) :: d' => if eq_dec k k' then Some v else dict_get d' k
  end.

(** [k in d] *)
Definition dict_mem (d : dict) (k : K) : bool :=
  match dict_get d k with Some _ => true | None => false end.

(** [d[k] = v] *)
Fixpoint dict_set (d : dict) (k : K) (v : V) : dict :=
  match d with
  | [] => [(k, v)]
  | (k', v') :: d' =>
      if eq_dec k k' then (k', v) :: d' else (k', v') :: dict_set d' k v
  end.

(** [list(d)] *)
Definition dict_keys (d : dict) : list K := map fst d.

(** [list(d.values())] *)
Definition dict_values (d : dict) : list V := map snd d.
End Dict.

Arguments dict K V : clear implicits.

(** ** Exceptions and results *)

Inductive exn : Type :=
| UnsetError (note : value)          (* jeni.UnsetError and its [note] attribute *)
| LookupError (arg : value)
| RuntimeError (msg : string)
| TypeError (msg : string)
| ValueError (msg : string)
| AttributeError (msg : string)
| Exception (payload : value).       (* any other exception of user code *)

(** What a call into user code, or a pure helper, does. *)
Inductive outcome (A : Type) : Type :=
| Returns (a : A)
| Raises (e : exn).
Arguments Returns {A} a.
Arguments Raises {A} e.

(** ** Note parsing *)

Definition newline : ascii := "010"%char.
Definition colon : ascii := ":"%char.

Definition is_newline (c : ascii) : bool := Ascii.eqb c newline.

(** The end anchor without [re.MULTILINE]: the end of the string, or just before a
    newline that ends the string. [rest] is what is left to read. *)
Definition at_end (rest : string) : bool :=
  match rest with
  | EmptyString => true
  | String c EmptyString => is_newline c
  | _ => false
  end.

(** The second group and the end anchor, read at [rest]: a greedy run of
    any characters but newline (the dot does not match a newline), giving
    characters back one at a time until the end anchor holds. The result is
    the group. *)
Fixpoint dot_star_end (rest : string) : option string :=
  match rest with
  | EmptyString => Some EmptyString
  | String c rest' =>
      if is_newline c then
        (if at_end rest then Some EmptyString else None)
      else
        match dot_star_end rest' with
        | Some g => Some (String c g)
        | None => if at_end rest then Some EmptyString else None
        end
  end.

(** The optional part (a colon, then the second group) and the end anchor,
    read at [rest]: taking the optional part is tried first. The result is
    the second group, [None] when it did not take part. *)
Definition opt_name_end (rest : string) : option (option string) :=
  let skip := if at_end rest then Some None else None in
  match rest with
  | String c rest' =>
      if Ascii.eqb c colon then
        match dot_star_end rest' with
        | Some g => Some (Some g)
        | None => skip
        end
      else skip
  | EmptyString => skip
  end.

(** The first group followed by the rest of the pattern: a lazy run of any
    characters but newline, one more character at a time. [taken] is the
    first group so far, in reverse. *)
Fixpoint lazy_base (taken : list ascii) (rest : string) : option (string * option string) :=
  match opt_name_end rest with
  | Some g2 => Some (string_of_list_ascii (rev taken), g2)
  | None =>
      match rest with
      | EmptyString => None
      | String c rest' =>
          if is_newline c then None else lazy_base (c :: taken) rest'
      end
  end.

(** [re_note.match(note)], where [re_note] is the compiled pattern of the
    class: start anchor, lazy first group, optional colon and greedy second
    group, end anchor; no flags. [None] when there is no match, else
    [match.groups()]. *)
Definition re_note_match (note : string) : option (string * option string) :=
  lazy_base [] note.

Definition opt_str (o : option string) : value :=
  match o with Some s => VStr s | None => VNone end.

(** [Injector.parse_note] *)
Definition parse_note (note : value) : outcome (value * value) :=
  match note with
  | VTuple items =>
      match items with
      | [basenote; name] => Returns (basenote, name)
      | _ => Raises (ValueError "tuple annotations must be length 2")
      end
  | VStr s =>
      match re_note_match s with
      | Some (g1, g2) => Returns (VStr g1, opt_str g2)
      | None => Raises (AttributeError "'NoneType' object has no attribute 'groups'")
      end
  | _ => Returns (note, VNone)   (* TypeError from [match]: not a string *)
  end.

(** ** User code: annotated callables, provider classes, generator functions *)

(** [collect_notes(fn)]: the positional notes and the keyword notes. *)
Record annotations : Type := {
  notes : list value;
  keyword_notes : dict string value
}.

(** A plain callable (a factory function, or a decoration step). [fn_call
    args kwargs name] is the call of [fn] with the positional arguments
    [args] and the keyword arguments [kwargs], and with [name=n] as one more
    keyword argument when [name] is [Some n]. [fn_annotations]
    is [None] when [has_annotations(fn)] is false. *)
Record callable : Type := {
  fn_name : string;
  fn_annotations : option annotations;
  fn_call : list value -> dict string value -> option value -> outcome value
}.

(** A provider class. [new args kwargs] is the call of the class: the
    state of the object constructed, or the exception of its constructor.
    The state is read and updated by the methods [get] and [close]; the
    constructor and [get] may carry annotations. *)
Record provider_class : Type := {
  init_annotations : option annotations;
  new : list value -> dict string value -> outcome value;
  get_annotations : option annotations;
  get : value -> list value -> dict string value -> option value ->
        outcome value * value;
  close_method : value -> outcome unit * value
}.

(** What resuming a generator does: it yields a value and pauses in a new
    frame, or returns ([StopIteration] for the caller), or raises. *)
Inductive resumed : Type :=
| Yields (v : value) (frame : value)
| Stops
| Throws (e : exn).

(** A generator function. [start args kwargs] runs the body up to its first
    [yield]; [send frame x] resumes a paused generator with [x];
    [on_close frame] resumes it with [GeneratorExit] thrown in at the paused
    [yield], as [generator.close()] does: [Stops] stands for the generator
    returning or letting [GeneratorExit] through. *)
Record generator_function : Type := {
  support_name : bool;
  gen_annotations : option annotations;
  start : list value -> dict string value -> resumed;
  send : value -> value -> resumed;
  on_close : value -> resumed
}.

Inductive generator_state : Type :=
| Suspended (frame : value)
| Finished.

(** What a registry holds: [inspect.isclass], [inspect.isgeneratorfunction],
    or anything else (a factory, or an object with a [get] attribute; both
    are called and never stored in [instances]). *)
Inductive descriptor : Type :=
| DClass (c : provider_class)
| DGenerator (g : generator_function)
| DCallable (f : callable).

(** ** GeneratorProvider *)

Record GeneratorProvider : Type := {
  function : generator_function;
  generator : generator_state;
  init_value : value
}.

(** [next(generator)] and [generator.send(x)] *)
Definition generator_send (g : generator_function) (s : generator_state) (x : value)
  : resumed * generator_state :=
  match s with
  | Finished => (Stops, Finished)
  | Suspended frame =>
      match send g frame x with
      | Yields v frame' => (Yields v frame', Suspended frame')
      | Stops => (Stops, Finished)
      | Throws e => (Throws e, Finished)
      end
  end.

(** [generator.close()] *)
Definition generator_close (g : generator_function) (s : generator_state)
  : outcome unit * generator_state :=
  match s with
  | Finished => (Returns tt, Finished)
  | Suspended frame =>
      match on_close g frame with
      | Stops => (Returns tt, Finished)
      | Throws e => (Raises e, Finished)
      | Yields _ frame' =>
          (Raises (RuntimeError "generator ignored GeneratorExit"), Suspended frame')
      end
  end.

(** [GeneratorProvider.init] on a provider just built from [g] *)
Definition GeneratorProvider_init (g : generator_function)
    (a : list value) (kw : dict string value) : outcome (GeneratorProvider * value) :=
  match start g a kw with
  | Yields v frame =>
      Returns ({| function := g; generator := Suspended frame; init_value := v |}, v)
  | Stops => Raises (RuntimeError "generator didn't yield")
  | Throws e => Raises e
  end.

(** [GeneratorProvider.get] *)
Definition GeneratorProvider_get (p : GeneratorProvider) (name : value)
  : outcome value * GeneratorProvider :=
  if is_None name then (Returns (init_value p), p)
  else if negb (support_name (function p)) then
    (Raises (TypeError "generator does not support get-by-name"), p)
  else
    let (r, s) := generator_send (function p) (generator p) name in
    let p' := {| function := function p; generator := s; init_value := init_value p |} in
    match r with
    | Yields v _ => (Returns v, p')
    | Stops => (Raises (RuntimeError "generator didn't yield"), p')
    | Throws e => (Raises e, p')
    end.

(** [GeneratorProvider.close] *)
Definition GeneratorProvider_close (p : GeneratorProvider)
  : outcome unit * GeneratorProvider :=
  let with_state s :=
    {| function := function p; generator := s; init_value := init_value p |} in
  let (c, s1) :=
    if support_name (function p) then generator_close (function p) (generator p)
    else (Returns tt, generator p) in
  match c with
  | Raises e => (Raises e, with_state s1)
  | Returns _ =>
      let (r, s2) := generator_send (function p) s1 VNone in
      match r with
      | Stops => (Returns tt, with_state s2)
      | Yields _ _ => (Raises (RuntimeError "generator didn't stop"), with_state s2)
      | Throws e => (Raises e, with_state s2)
      end
  end.

(** ** The Injector *)

(** A materialized provider, as stored in [Injector.instances]. *)
Inductive instance : Type :=
| ClassInstance (c : provider_class) (self : value)
| GeneratorInstance (p : GeneratorProvider).

(** An operation performed on a provider. *)
Inductive event : Type :=
| Constructed (basenote : value)
| Initialized (basenote : value) (args : list value) (kwargs : dict string value)
| Got (basenote : value) (args : list value) (kwargs : dict string value)
      (name : option value)
| Stepped (fn : string) (args : list value) (kwargs : dict string value)
| Closed (basenote : value).

Record Injector : Type := {
  closed : bool;
  instances : dict value instance;
  values : dict value value;
  calls : list event
}.

(** [Injector.__init__] *)
Definition Injector_init : Injector :=
  {| closed := false; instances := []; values := []; calls := [] |}.

Definition set_closed (b : bool) (st : Injector) : Injector :=
  {| closed := b; instances := instances st; values := values st; calls := calls st |}.
Definition set_instance (k : value) (i : instance) (st : Injector) : Injector :=
  {| closed := closed st; instances := dict_set (instances st) k i;
     values := values st; calls := calls st |}.
Definition set_value (k : value) (v : value) (st : Injector) : Injector :=
  {| closed := closed st; instances := instances st;
     values := dict_set (values st) k v; calls := calls st |}.
Definition record (e : event) (st : Injector) : Injector :=
  {| closed := closed st; instances := instances st;
     values := values st; calls := calls st ++ [e] |}.

(** Results of injector methods: a value, a Python exception, or the fuel
    of the embedding ran out in a chain of dependencies. *)
Inductive result (A : Type) : Type :=
| Ok (a : A)
| Raise (e : exn)
| OutOfFuel.
Arguments Ok {A} a.
Arguments Raise {A} e.
Arguments OutOfFuel {A}.

Definition M (A : Type) : Type := Injector -> result A * Injector.

Definition ret {A} (a : A) : M A := fun st => (Ok a, st).
Definition raise {A} (e : exn) : M A := fun st => (Raise e, st).
Definition bind {A B} (m : M A) (k : A -> M B) : M B :=
  fun st =>
    match m st with
    | (Ok a, st') => k a st'
    | (Raise e, st') => (Raise e, st')
    | (OutOfFuel, st') => (OutOfFuel, st')
    end.
Definition lift {A} (o : outcome A) : M A :=
  match o with Returns a => ret a | Raises e => raise e end.
Definition modify (f : Injector -> Injector) : M unit := fun st => (Ok tt, f st).

Notation "x <- m ;; k" := (bind m (fun x => k))
  (at level 61, m at next level, right associativity).
Notation "m ;;; k" := (bind m (fun _ => k))
  (at level 61, right associativity).

Definition gets {A} (f : Injector -> A) : M A := fun st => (Ok (f st), st).

(** [try: m except UnsetError: exc_value.note = note; reraise] *)
Definition tagging_unset {A} (note : value) (m : M A) : M A :=
  fun st =>
    match m st with
    | (Raise (UnsetError _), st') => (Raise (UnsetError note), st')
    | other => other
    end.

(** ** Class-level registries *)

(** A class is named; [mro] below is the list [cls.mro()] of such names,
    the class itself first. *)
Definition cls : Type := string.

(** For each class [c] with ['provider_registry' in vars(c)], its own
    [provider_registry]. *)
Definition registries : Type := dict cls (dict value descriptor).

(** [Injector.register] as a class method of [c] *)
Definition register (c : cls) (note : value) (provider : descriptor) (R : registries)
  : outcome registries :=
  match parse_note note with
  | Raises e => Raises e
  | Returns (basenote, name) =>
      let own := match dict_get R c with Some reg => reg | None => [] end in
      Returns (dict_set R c (dict_set own basenote provider))
  end.

(** [Injector.lookup] as a class method of the class whose [mro()] is [mro] *)
Fixpoint lookup (R : registries) (mro : list cls) (basenote : value) : outcome descriptor :=
  match mro with
  | [] => Raises (LookupError basenote)
  | c :: up =>
      match dict_get R c with
      | None => lookup R up basenote
      | Some reg =>
          match dict_get reg basenote with
          | Some provider => Returns provider
          | None => lookup R up basenote
          end
      end
  end.

(** ** Methods of an Injector instance *)

(** What [handle_provider] ends up calling: the [get] of a materialized
    provider, or the registered callable itself. *)
Inductive target : Type :=
| Held (i : instance)
| Plain (f : callable).

Definition target_annotations (t : target) : option annotations :=
  match t with
  | Held (ClassInstance c _) => get_annotations c
  | Held (GeneratorInstance _) => None   (* GeneratorProvider.get is not annotated *)
  | Plain f => fn_annotations f
  end.

Definition name_or_None (name : option value) : value :=
  match name with Some n => n | None => VNone end.

(** Calling the [get] method of the object held in [instances]: the object
    is read where it lives, so that what earlier calls did to it is seen,
    and left there in its new state. *)
Definition instance_get (i : instance) (a : list value) (kw : dict string value)
    (name : option value) : outcome value * instance :=
  match i with
  | ClassInstance c self =>
      let (r, self') := get c self a kw name in (r, ClassInstance c self')
  | GeneratorInstance p =>
      let (r, p') := GeneratorProvider_get p (name_or_None name) in
      (r, GeneratorInstance p')
  end.

(** [provider.close()] *)
Definition instance_close (i : instance) : outcome unit * instance :=
  match i with
  | ClassInstance c self =>
      let (r, self') := close_method c self in (r, ClassInstance c self')
  | GeneratorInstance p =>
      let (r, p') := GeneratorProvider_close p in (r, GeneratorInstance p')
  end.

(** The call [fn()] or [fn(name=name)] of [handle_provider], with the
    arguments bound by [partial]. *)
Definition call_target (t : target) (basenote : value) (a : list value)
    (kw : dict string value) (name : option value) : M value :=
  fun st =>
    let st1 := record (Got basenote a kw name) st in
    match t with
    | Plain f => lift (fn_call f a kw name) st1
    | Held held =>
        let i := match dict_get (instances st) basenote with
                 | Some i => i
                 | None => held
                 end in
        let (r, i') := instance_get i a kw name in
        lift r (set_instance basenote i' st1)
    end.

Section Methods.
Variable R : registries.
Variable mro : list cls.                    (* type(self).mro() *)
Variable self_resolve : value -> M value.   (* self.resolve *)

(** [tuple(self.resolve(note) for note in notes)] *)
Fixpoint resolve_each (ns : list value) : M (list value) :=
  match ns with
  | [] => ret []
  | note :: rest =>
      v <- self_resolve note ;;
      vs <- resolve_each rest ;;
      ret (v :: vs)
  end.

(** The loop of [fulfill] over [keyword_notes], [kwargs] built so far. *)
Fixpoint resolve_keywords (kn : dict string value) (kwargs : dict string value)
  : M (dict string value) :=
  match kn with
  | [] => ret kwargs
  | (arg, note) :: rest =>
      fun st =>
        match self_resolve note st with
        | (Ok v, st') => resolve_keywords rest (dict_set kwargs arg v) st'
        | (Raise (UnsetError _), st') => resolve_keywords rest kwargs st'
        | (Raise e, st') => (Raise e, st')
        | (OutOfFuel, st') => (OutOfFuel, st')
        end
  end.

(** [Injector.fulfill] *)
Definition fulfill (ns : list value) (kn : dict string value)
  : M (list value * dict string value) :=
  args <- resolve_each ns ;;
  kwargs <- resolve_keywords kn [] ;;
  ret (args, kwargs).

(** [Injector.prepare], on the notes [collect_notes] reads off [fn] *)
Definition prepare (a : annotations) : M (list value * dict string value) :=
  fulfill (notes a) (keyword_notes a).

(** [fn = self.partial(fn)] when [has_annotations(fn)], else [fn]: the
    arguments bound to [fn]. *)
Definition partial_if_annotated (a : option annotations)
  : M (list value * dict string value) :=
  match a with
  | Some an => prepare an
  | None => ret ([], [])
  end.

(** [Injector.init_generator]; [basenote] only labels the record of the
    call to [init]. *)
Definition init_generator (basenote : value) (fn : generator_function)
  : M (GeneratorProvider * value) :=
  bound <- partial_if_annotated (gen_annotations fn) ;;
  modify (record (Initialized basenote (fst bound) (snd bound))) ;;;
  lift (GeneratorProvider_init fn (fst bound) (snd bound)).

(** The second half of [handle_provider], from [hasattr(provider_or_fn,
    'get')] on. *)
Definition invoke (t : target) (note basenote name : value) : M value :=
  bound <- partial_if_annotated (target_annotations t) ;;
  tagging_unset note
    (if is_None name then
       value <- call_target t basenote (fst bound) (snd bound) None ;;
       modify (set_value basenote value) ;;;
       ret value
     else
       call_target t basenote (fst bound) (snd bound) (Some name)).

(** [Injector.handle_provider] *)
Definition handle_provider (provider_or_fn : descriptor) (note basenote name : value)
  : M value :=
  held <- gets (fun st => dict_get (instances st) basenote) ;;
  match held with
  | Some i => invoke (Held i) note basenote name
  | None =>
      match provider_or_fn with
      | DClass c =>
          modify (record (Constructed basenote)) ;;;
          self <- lift (new c [] []) ;;
          modify (set_instance basenote (ClassInstance c self)) ;;;
          invoke (Held (ClassInstance c self)) note basenote name
      | DGenerator g =>
          pv <- init_generator basenote g ;;
          modify (set_instance basenote (GeneratorInstance (fst pv))) ;;;
          modify (set_value basenote (snd pv)) ;;;
          if is_None name then ret (snd pv)
          else invoke (Held (GeneratorInstance (fst pv))) note basenote name
      | DCallable f => invoke (Plain f) note basenote name
      end
  end.

(** [Injector.resolve], its recursive calls going to [self_resolve] *)
Definition resolve_body (note : value) : M value :=
  parsed <- lift (parse_note note) ;;
  let basenote := fst parsed in
  let name := snd parsed in
  cached <- gets (fun st => dict_get (values st) basenote) ;;
  match (if is_None name then cached else None) with
  | Some v => ret v
  | None =>
      provider_or_fn <-
        lift (match lookup R mro basenote with
              | Returns found => Returns found
              | Raises _ => Raises (LookupError note)
              end) ;;
      handle_provider provider_or_fn note basenote name
  end.
End Methods.

(** [Injector.resolve] *)
Fixpoint resolve (R : registries) (mro : list cls) (fuel : nat) (note : value) : M value :=
  match fuel with
  | O => fun st => (OutOfFuel, st)
  | S fuel' => resolve_body R mro (resolve R mro fuel') note
  end.

(** The loop of [Injector.close] over [self.instances.values()]: the
    providers are closed where they live, the first exception ends the loop. *)
Fixpoint close_each (items : dict value instance)
  : result unit * dict value instance * list event :=
  match items with
  | [] => (Ok tt, [], [])
  | (k, i) :: rest =>
      let (r, i') := instance_close i in
      match r with
      | Raises e => (Raise e, (k, i') :: rest, [Closed k])
      | Returns _ =>
          let '(r', rest', evs) := close_each rest in
          (r', (k, i') :: rest', Closed k :: evs)
      end
  end.

(** [Injector.close] *)
Definition close : M unit :=
  fun st =>
    if closed st then (Raise (RuntimeError "already closed"), st)
    else
      let '(r, items, evs) := close_each (instances st) in
      let st' := {| closed := closed st; instances := items;
                    values := values st; calls := calls st ++ evs |} in
      match r with
      | Ok _ => (Ok tt, set_closed true st')
      | other => (other, st')
      end.

(** ** DecoratingInjector (jeni_decoration.py) *)

Definition DECORATE : string := "decorate".
Definition CONFIGURE : string := "configure".

(** A registered decoration: its mode and its step. *)
Definition decoration : Type := (string * callable)%type.

(** For each class [c] with ['decorator_registry' in vars(c)], its own
    [decorator_registry]: a [defaultdict(list)] keyed by (basenote, name). *)
Definition decorators : Type := dict cls (dict (value * value) (list decoration)).

(** [c.decorator_registry[basenote, name]] read without creating it, the
    empty list when the class or the key has none. *)
Definition own_decorations (D : decorators) (c : cls) (basenote name : value)
  : list decoration :=
  match dict_get D c with
  | None => []
  | Some reg =>
      match dict_get reg (basenote, name) with
      | Some steps => steps
      | None => []
      end
  end.

(** [DecoratingInjector.decorate] as a class method of [c], called with the
    step [fn] and the keyword [mode] (the call without [fn] only returns
    this one with [note] and [mode] bound). *)
Definition decorate (c : cls) (note : value) (fn : callable) (mode : string)
    (D : decorators) : outcome decorators :=
  if negb (String.eqb mode DECORATE || String.eqb mode CONFIGURE) then
    Raises (ValueError "Invalid decorate() mode")
  else
    match parse_note note with
    | Raises e => Raises e
    | Returns (basenote, name) =>
        if String.eqb mode CONFIGURE && negb (is_None name) then
          Raises (ValueError "Decorating named notes in configure mode not supported")
        else
          let own := match dict_get D c with Some reg => reg | None => [] end in
          Returns (dict_set D c
                     (dict_set own (basenote, name)
                        (own_decorations D c basenote name ++ [(mode, fn)])))
    end.

(** [DecoratingInjector.configure] *)
Definition configure (c : cls) (note : value) (fn : callable) (D : decorators)
  : outcome decorators :=
  decorate c note fn CONFIGURE D.

(** The walk of [decorators_iter] over the registries: the classes of
    [type(self).mro()] in reverse, and for each class that has entries for
    the key its list, in the order of registration. What the generator does
    with each entry it reaches is part of [apply_decorations] below. *)
Definition decorators_iter (D : decorators) (mro : list cls) (basenote name : value)
  : list decoration :=
  flat_map (fun c => own_decorations D c basenote name) (rev mro).

(** The call [fn(value)] of [decorators_apply], [fn] being the step with
    the arguments that [partial] bound to it. *)
Definition call_step (fn : callable) (bound : list value * dict string value)
    (v : value) : M value :=
  modify (record (Stepped (fn_name fn) (fst bound ++ [v]) (snd bound))) ;;;
  lift (fn_call fn (fst bound ++ [v]) (snd bound) None).

(** *** Attribute lookup on [self] *)

(** What [Injector.__init__] sets on the instance, and the names that the
    body of class [Injector] binds, [provider_registry] among them once a
    provider is registered. *)
Definition Injector_attributes : list string :=
  ["closed"; "instances"; "values";
   "generator_provider"; "re_note"; "provider"; "factory"; "apply"; "partial";
   "close"; "prepare"; "fulfill"; "resolve"; "handle_provider"; "parse_note";
   "register"; "lookup"; "init_generator"; "provider_registry"]%string.

(** The names that the body of class [DecoratingInjector] binds, with
    [decorator_registry] once a decoration is registered. *)
Definition DecoratingInjector_attributes : list string :=
  ["decorate"; "decorators_iter"; "decorators_apply"; "configure";
   "_handle_provider"; "decorator_registry"]%string.

(** Whether [self.name] is bound, for an injector whose class is
    [DecoratingInjector] or a subclass of it that only registers providers
    and decorations (the names every object has are not asked for). *)
Definition has_attribute (name : string) : bool :=
  existsb (String.eqb name) (DecoratingInjector_attributes ++ Injector_attributes).

(** The AttributeError of [self.name] for a name that is not bound;
    [type(self)] is the head of [mro]. *)
Definition no_attribute (mro : list cls) (name : string) : exn :=
  AttributeError
    (String.append "'"
       (String.append (hd EmptyString mro)
          (String.append "' object has no attribute '"
             (String.append name "'")))).

(** A call of the method [self.name]: the attribute is looked up first,
    and [call] is what calling it does. *)
Definition self_call {A} (mro : list cls) (name : string) (call : M A) : M A :=
  if has_attribute name then call else raise (no_attribute mro name).

Section Decorating.
Variable self_resolve : value -> M value.   (* self.resolve *)
Variable mro : list cls.                    (* type(self).mro() *)

(** The loop of [decorators_apply] over what [decorators_iter] yields.
    For each entry it reaches, the generator calls [self.has_annotations]
    on the step, and yields the step, with its dependencies bound by
    [self.partial] when it is annotated; the loop then calls what was
    yielded. Neither [Injector] nor [DecoratingInjector] binds
    [has_annotations], which is a function of the module jeni. *)
Fixpoint apply_decorations (steps : list decoration) (v : value) : M value :=
  match steps with
  | [] => ret v
  | (mode, fn) :: rest =>
      bound <- self_call mro "has_annotations"
                 (partial_if_annotated self_resolve (fn_annotations fn)) ;;
      if String.eqb mode DECORATE then
        v' <- call_step fn bound v ;;
        apply_decorations rest v'
      else if String.eqb mode CONFIGURE then
        call_step fn bound v ;;;
        apply_decorations rest v
      else apply_decorations rest v
  end.

(** [DecoratingInjector.decorators_apply] *)
Definition decorators_apply (D : decorators) (basenote name v : value) : M value :=
  apply_decorations (decorators_iter D mro basenote name) v.

(** [_handle_provider] calls three more methods on [self] that neither
    class binds. What each would be given is written out after the lookup,
    the methods themselves being parameters: [prepare_callable] is given the
    annotations of the constructor, [apply_regardless] the registered
    factory, of which it returns the provider, and [partial_regardless] the
    provider, of whose [get] it returns the bound arguments. *)
Variable prepare_callable : annotations -> M (list value * dict string value).
Variable apply_regardless : descriptor -> M instance.
Variable partial_regardless : instance -> M (list value * dict string value).

(** The provider that [_handle_provider] stores for a base it does not
    hold yet. For a class the test of [self.has_annotations] on its
    constructor comes first. *)
Definition new_provider (provider_factory : descriptor) : M instance :=
  match provider_factory with
  | DClass c =>
      self_call mro "has_annotations"
        (match init_annotations c with
         | Some a =>
             bound <- self_call mro "prepare_callable" (prepare_callable a) ;;
             self <- lift (new c (fst bound) (snd bound)) ;;
             ret (ClassInstance c self)
         | None =>
             self_call mro "apply_regardless" (apply_regardless provider_factory)
         end)
  | _ => self_call mro "apply_regardless" (apply_regardless provider_factory)
  end.

(** [DecoratingInjector._handle_provider] *)
Definition _handle_provider (D : decorators)
    (provider_factory : descriptor) (note basenote name : value) : M value :=
  held <- gets (fun st => dict_get (instances st) basenote) ;;
  provider <-
    match held with
    | Some i => ret i
    | None =>
        i <- new_provider provider_factory ;;
        modify (set_instance basenote i) ;;;
        ret i
    end ;;
  bound <- self_call mro "partial_regardless" (partial_regardless provider) ;;
  tagging_unset note
    (if negb (is_None name) then
       v <- call_target (Held provider) basenote (fst bound) (snd bound) (Some name) ;;
       decorators_apply D basenote name v
     else
       v <- call_target (Held provider) basenote (fst bound) (snd bound) None ;;
       v' <- decorators_apply D basenote VNone v ;;
       modify (set_value basenote v') ;;;
       ret v').
End Decorating.

(** ** Vocabulary of the properties *)

Definition nl : string := String newline EmptyString.

(** [c in s] *)
Fixpoint contains (c : ascii) (s : string) : bool :=
  match s with
  | EmptyString => false
  | String c' s' => Ascii.eqb c' c || contains c s'
  end.

(** [c] holds a registration of [d] for [basenote] in its own table. *)
Definition registered (R : registries) (c : cls) (basenote : value) (d : descriptor) : Prop :=
  exists reg, dict_get R c = Some reg /\ dict_get reg basenote = Some d.

(** [c] holds no registration for [basenote]. *)
Definition unregistered (R : registries) (c : cls) (basenote : value) : Prop :=
  forall reg, dict_get R c = Some reg -> dict_get reg basenote = None.

(** [instances] of [st'] lists the keys of [st] in their order, then keys
    that [st] does not have. *)
Definition appends_instances (st st' : Injector) : Prop :=
  exists new, dict_keys (instances st') = dict_keys (instances st) ++ new.

(** A method all of whose runs relate the state before to the state after
    by [Rel]. *)
Definition respects (Rel : Injector -> Injector -> Prop) {A} (m : M A) : Prop :=
  forall st, Rel st (snd (m st)).

(** A method that neither reads nor writes the [closed] flag. *)
Definition oblivious {A} (m : M A) : Prop :=
  forall b st, m (set_closed b st) = (fst (m st), set_closed b (snd (m st))).

(** [Injector.fulfill] on an instance, the nested resolutions having [fuel] *)
Definition Injector_fulfill (R : registries) (mro : list cls) (fuel : nat)
    (ns : list value) (kn : dict string value) : M (list value * dict string value) :=
  fulfill (resolve R mro fuel) ns kn.

(** The provider closes without raising. *)
Definition close_succeeds (i : instance) : Prop :=
  fst (instance_close i) = Returns tt.

(** The provider's close raises [e]. *)
Definition close_fails (i : instance) (e : exn) : Prop :=
  fst (instance_close i) = Raises e.

(** An entry of [instances] after its provider was closed. *)
Definition closed_item (ki : value * instance) : value * instance :=
  (fst ki, snd (instance_close (snd ki))).

(** ** States of an injector in use *)

(** The injectors that the methods produce from a new one, the class
    registries being [R] throughout. *)
Inductive reachable (R : registries) (mro : list cls) : Injector -> Prop :=
| reachable_init : reachable R mro Injector_init
| reachable_resolve st fuel note :
    reachable R mro st -> reachable R mro (snd (resolve R mro fuel note st))
| reachable_fulfill st fuel ns kn :
    reachable R mro st -> reachable R mro (snd (Injector_fulfill R mro fuel ns kn st))
| reachable_close st :
    reachable R mro st -> reachable R mro (snd (close st)).

(** Every provider held by [st] is still held by [st']. *)
Definition grows (st st' : Injector) : Prop :=
  forall k, dict_mem (instances st) k = true -> dict_mem (instances st') k = true.

(** Wherever a value is cached for a base whose registered provider is a
    generator function, the provider is materialized. *)
Definition generators_held (R : registries) (mro : list cls) (st : Injector) : Prop :=
  forall k g,
    dict_mem (values st) k = true ->
    lookup R mro k = Returns (DGenerator g) ->
    dict_mem (instances st) k = true.

(** [generators_held], and the cached value [v] of the base [b] when
    [o] is [Some (b, v)]. *)
Definition settled (R : registries) (mro : list cls) (o : option (value * value))
    (st : Injector) : Prop :=
  generators_held R mro st /\
  forall b v, o = Some (b, v) -> dict_get (values st) b = Some v.

(** A step that keeps what is held, and keeps [settled]. *)
Definition settles (R : registries) (mro : list cls) (o : option (value * value))
    (st st' : Injector) : Prop :=
  grows st st' /\ (settled R mro o st -> settled R mro o st').

(** Caching a value for [k] in [st] cannot break [generators_held]. *)
Definition cacheable (R : registries) (mro : list cls) (st : Injector) (k : value) : Prop :=
  dict_mem (instances st) k = true \/
  forall g, lookup R mro k <> Returns (DGenerator g).

(** ** Sample providers *)

Module Sample.

(** A generator function that yields [v] once and then returns. *)
Definition yield_once (v : value) : generator_function :=
  {| support_name := false;
     gen_annotations := None;
     start := fun _ _ => Yields v VNone;
     send := fun _ _ => Stops;
     on_close := fun _ => Stops |}.

(** A generator function with name support: it yields [v], then for
    every name sent the string "Hello, " followed by that name. *)
Definition greeter (v : value) : generator_function :=
  {| support_name := true;
     gen_annotations := None;
     start := fun _ _ => Yields v VNone;
     send := fun frame name =>
               match name with
               | VStr n => Yields (VStr ("Hello, " ++ n)) frame
               | _ => Yields (VStr "Hello") frame
               end;
     on_close := fun _ => Stops |}.

(** A generator function that reports its value as unset before its
    first [yield]. *)
Definition unset_generator : generator_function :=
  {| support_name := false;
     gen_annotations := None;
     start := fun _ _ => Throws (UnsetError VNone);
     send := fun _ _ => Stops;
     on_close := fun _ => Stops |}.

(** A factory that returns [v]. *)
Definition constant (name : string) (v : value) : callable :=
  {| fn_name := name; fn_annotations := None;
     fn_call := fun _ _ _ => Returns v |}.

(** The factory [error] of the module's demonstration: [raise UnsetError]. *)
Definition error : callable :=
  {| fn_name := "error"; fn_annotations := None;
     fn_call := fun _ _ _ => Raises (UnsetError VNone) |}.

(** A provider class whose [get] returns [v]; its [close] raises when
    [leaky] is set. *)
Definition holder (v : value) (leaky : bool) : provider_class :=
  {| init_annotations := None;
     new := fun _ _ => Returns VNone;
     get_annotations := None;
     get := fun self _ _ _ => (Returns v, self);
     close_method := fun self =>
       (if leaky then Raises (Exception (VStr "close failed")) else Returns tt, self) |}.

(** A provider class whose [close] raises the first time it is called
    and returns from then on; the instance counts the calls. *)
Definition flaky (v : value) : provider_class :=
  {| init_annotations := None;
     new := fun _ _ => Returns (VInt 0);
     get_annotations := None;
     get := fun self _ _ _ => (Returns v, self);
     close_method := fun self =>
       match self with
       | VInt 0 => (Raises (Exception (VStr "close failed")), VInt 1)
       | _ => (Returns tt, self)
       end |}.

(** A provider class whose [get] is annotated with the positional note
    [dep] and returns the value bound to it. *)
Definition relay (dep : value) : provider_class :=
  {| init_annotations := None;
     new := fun _ _ => Returns VNone;
     get_annotations := Some {| notes := [dep]; keyword_notes := [] |};
     get := fun self a _ _ =>
              (match a with v :: _ => Returns v | [] => Raises (TypeError "missing argument") end,
               self);
     close_method := fun self => (Returns tt, self) |}.

Definition registry : registries :=
  [("Injector",
    [(VStr "answer", DGenerator (yield_once (VInt 42)));
     (VStr "error", DCallable error);
     (VStr "greeting", DGenerator (greeter (VStr "Hello, world!")));
     (VStr "first", DClass (holder (VInt 1) true));
     (VStr "second", DClass (holder (VInt 2) false));
     (VStr "pending", DGenerator unset_generator);
     (VStr "relay", DClass (relay (VStr "error")))])].

(** Registries with a provider whose [close] succeeds at the second
    attempt only, registered after one whose [close] always succeeds. *)
Definition retry_registry : registries :=
  [("Injector",
    [(VStr "second", DClass (holder (VInt 2) false));
     (VStr "flaky", DClass (flaky (VInt 7)))])].

Definition mro : list cls := ["Injector"; "object"].

(** [injector.resolve(note)] *)
Definition resolve_in (note : string) (st : Injector) : result value * Injector :=
  resolve registry mro 5 (VStr note) st.

(** An injector after resolving ["first"] and then ["second"]. *)
Definition two_providers : Injector :=
  snd (resolve_in "second" (snd (resolve_in "first" Injector_init))).

End Sample.

Module SampleDecorations.
Local Open Scope string_scope.

Fixpoint reverse (s : string) : string :=
  match s with
  | EmptyString => EmptyString
  | String c s' => reverse s' ++ String c EmptyString
  end.

Definition on_string (f : string -> string) (a : list value) : outcome value :=
  match a with
  | [VStr s] => Returns (VStr (f s))
  | _ => Raises (TypeError "expected one string")
  end.

(** [lambda v: v[::-1]] *)
Definition reverse_it : callable :=
  {| fn_name := "reverse_it"; fn_annotations := None;
     fn_call := fun a _ _ => on_string reverse a |}.

(** [lambda v: v+v] *)
Definition double_it : callable :=
  {| fn_name := "double_it"; fn_annotations := None;
     fn_call := fun a _ _ => on_string (fun s => s ++ s) a |}.

(** A step that returns nothing of use. *)
Definition ignore_it : callable :=
  {| fn_name := "ignore_it"; fn_annotations := None;
     fn_call := fun _ _ _ => Returns VNone |}.

Definition out (o : outcome decorators) : decorators :=
  match o with Returns D => D | Raises _ => [] end.

(** [test_nested_decorate], with a configuration step in between:
    [reverse_it] and [ignore_it] on the injector class, [double_it] on its
    subclass, which registers first. *)
Definition nested : decorators :=
  out (configure "TestInjector" (VStr "it") ignore_it
    (out (decorate "TestInjector" (VStr "it") reverse_it DECORATE
      (out (decorate "SubTestInjector" (VStr "it") double_it DECORATE []))))).

Definition sub_mro : list cls :=
  ["SubTestInjector"; "TestInjector"; "DecoratingInjector"; "Injector"; "object"].
End SampleDecorations.

(** * The rest of the module *)

(** ** Shapes of string notes *)

(** [s] has a line break before its last character. *)
Fixpoint line_break_inside (s : string) : bool :=
  match s with
  | EmptyString => false
  | String c EmptyString => false
  | String c rest => is_newline c || line_break_inside rest
  end.

(** [s] cut at its first colon: what is before it, and what is after it
    when there is one. *)
Fixpoint split_first_colon (s : string) : string * option string :=
  match s with
  | EmptyString => (EmptyString, None)
  | String c rest =>
      if Ascii.eqb c colon then (EmptyString, Some rest)
      else let (b, n) := split_first_colon rest in (String c b, n)
  end.

(** ** Traces of an injector *)

(** [e] records the construction of a provider class, or the
    initialization of a generator provider, for the base [k]. *)
Definition materializing (k : value) (e : event) : Prop :=
  e = Constructed k \/ exists a kw, e = Initialized k a kw.

(** From [st] to [st'], a provider held for [k] stays held and no provider
    is constructed or initialized for [k]. *)
Definition keeps_provider (k : value) (st st' : Injector) : Prop :=
  dict_mem (instances st) k = true ->
  dict_mem (instances st') k = true /\
  exists new, calls st' = calls st ++ new /\
              forall e, In e new -> ~ materializing k e.

(** ** Outcomes *)

(** The method returned normally. *)
Definition is_Ok {A} (r : result A) : bool :=
  match r with Ok _ => true | _ => false end.

(** ** Annotating callables (jeni.py, module level) *)

(** A function, or a bound method, as the annotation helpers see it: what
    [getargspec] reads off it, whether it has a [__self__], and its
    [__annotations__] (those of its [__func__] for a bound method). *)
Record function_object : Type := {
  argspec_args : list string;
  argspec_defaults : list value;
  argspec_varkw : bool;
  has_self : bool;
  __annotations__ : dict string value
}.

Definition with_annotations (fn : function_object) (a : dict string value)
  : function_object :=
  {| argspec_args := argspec_args fn;
     argspec_defaults := argspec_defaults fn;
     argspec_varkw := argspec_varkw fn;
     has_self := has_self fn;
     __annotations__ := a |}.

(** [d.update(other)] *)
Definition dict_update {K V} `{EqDec K} (d other : dict K V) : dict K V :=
  fold_left (fun acc kv => dict_set acc (fst kv) (snd kv)) other d.

(** [get_function_arguments]; [in_class] is what [class_in_progress()]
    finds on the call stack at that moment. *)
Definition get_function_arguments (in_class : bool) (fn : function_object)
  : list string :=
  let a := argspec_args fn in
  let a := if in_class then tl a else a in
  if has_self fn then tl a else a.

(** The loop of [get_named_positional_keyword_arguments]: [args.pop()] for
    each default, last default first; the lists are held in reverse. *)
Fixpoint pop_defaults (rev_args : list string) (rev_defaults : list value)
    (keywords : dict string value) : outcome (list string * dict string value) :=
  match rev_defaults with
  | [] => Returns (rev rev_args, keywords)
  | default :: more =>
      match rev_args with
      | [] => Raises (Exception (VStr "IndexError: pop from empty list"))
      | a :: rest => pop_defaults rest more (dict_set keywords a default)
      end
  end.

(** [get_named_positional_keyword_arguments] *)
Definition get_named_positional_keyword_arguments (in_class : bool)
    (fn : function_object) : outcome (list string * dict string value) :=
  pop_defaults (rev (get_function_arguments in_class fn))
    (rev (argspec_defaults fn)) [].

(** [supports_extra_keywords] *)
Definition supports_extra_keywords (fn : function_object) : bool :=
  argspec_varkw fn.

(** [arg in args] *)
Definition mentions (l : list string) (a : string) : bool :=
  if in_dec string_dec a l then true else false.

(** [check_for_extras] *)
Definition check_for_extras (in_class : bool) (fn : function_object)
    (keyword_notes : dict string value) : outcome unit :=
  if supports_extra_keywords fn then Returns tt
  else
    if forallb (mentions (get_function_arguments in_class fn)) (dict_keys keyword_notes)
    then Returns tt
    else Raises (TypeError "got an unexpected keyword annotation").

(** [get_annotations] *)
Definition get_annotations_of (fn : function_object) : outcome (dict string value) :=
  match __annotations__ fn with
  | [] => Raises (AttributeError "does not have annotations")
  | a => Returns a
  end.

(** [has_annotations] *)
Definition has_annotations (fn : function_object) : bool :=
  match get_annotations_of fn with
  | Returns _ => true
  | Raises _ => false
  end.

(** [set_annotations]: the function with its annotations set, or the
    exception raised. *)
Definition set_annotations (in_class : bool) (fn : function_object)
    (ns : list value) (kn : dict string value) : outcome function_object :=
  match __annotations__ fn with
  | _ :: _ => Raises (AttributeError "callable is already annotated")
  | [] =>
      match check_for_extras in_class fn kn with
      | Raises e => Raises e
      | Returns _ =>
          let annotations := dict_update [] kn in
          let args := get_function_arguments in_class fn in
          if Nat.ltb (List.length args) (List.length ns) then
            Raises (TypeError "more annotations given than arguments taken")
          else
            Returns (with_annotations fn (dict_update annotations (combine args ns)))
      end
  end.

(** [annotate(notes, keyword_notes)(fn)] *)
Definition annotate (in_class : bool) (ns : list value) (kn : dict string value)
    (fn : function_object) : outcome function_object :=
  set_annotations in_class fn ns kn.

(** The first loop of [collect_notes]: it ends at the first argument
    without an annotation. *)
Fixpoint collect_positional (annotations : dict string value) (args : list string)
  : list value :=
  match args with
  | [] => []
  | a :: rest =>
      match dict_get annotations a with
      | Some note => note :: collect_positional annotations rest
      | None => []
      end
  end.

(** The second loop of [collect_notes]: it skips the arguments without an
    annotation. *)
Fixpoint collect_keywords (annotations : dict string value) (keywords : list string)
    (keyword_notes : dict string value) : dict string value :=
  match keywords with
  | [] => keyword_notes
  | a :: rest =>
      match dict_get annotations a with
      | Some note => collect_keywords annotations rest (dict_set keyword_notes a note)
      | None => collect_keywords annotations rest keyword_notes
      end
  end.

(** [collect_notes] *)
Definition collect_notes (in_class : bool) (fn : function_object)
  : outcome annotations :=
  match get_annotations_of fn with
  | Raises e => Raises e
  | Returns a =>
      match get_named_positional_keyword_arguments in_class fn with
      | Raises e => Raises e
      | Returns (args, keywords) =>
          Returns {| notes := collect_positional a args;
                     keyword_notes := collect_keywords a (dict_keys keywords) [] |}
      end
  end.

(** [Injector.prepare] on a function object *)
Definition Injector_prepare (self_resolve : value -> M value) (in_class : bool)
    (fn : function_object) : M (list value * dict string value) :=
  a <- lift (collect_notes in_class fn) ;;
  fulfill self_resolve (notes a) (keyword_notes a).

(** [Injector.apply]; [body args kwargs] is the call of [fn] with the
    positional arguments [args] and the keyword arguments [kwargs]. *)
Definition Injector_apply (self_resolve : value -> M value) (in_class : bool)
    (fn : function_object)
    (body : list value -> dict string value -> outcome value) : M value :=
  bound <- Injector_prepare self_resolve in_class fn ;;
  lift (body (fst bound) (snd bound)).

Module SampleFunctions.
(** [def f(a, b, c=1, d=2)] *)
Definition f : function_object :=
  {| argspec_args := ["a"; "b"; "c"; "d"];
     argspec_defaults := [VInt 1; VInt 2];
     argspec_varkw := false;
     has_self := false;
     __annotations__ := [] |}.

(** The body of [f]: it returns its arguments. *)
Definition f_body (a : list value) (kw : dict string value) : outcome value :=
  Returns (VTuple (a ++ dict_values kw)).
End SampleFunctions.

(** ** Decoration registries *)

(** Every registered decoration is in decorate mode or in configure mode,
    and those in configure mode are registered for unnamed keys only. *)
Definition well_moded (D : decorators) : Prop :=
  forall c b n mode fn,
    In (mode, fn) (own_decorations D c b n) ->
    mode = DECORATE \/ (mode = CONFIGURE /\ n = VNone).

(** * Properties *)

(** ** Dictionaries *)

Section DictFacts.
Context {K V : Type} `{EqDec K}.
Implicit Types (d : dict K V) (k : K) (v : V).

Lemma dict_get_set_same d k v : dict_get (dict_set d k v) k = Some v.
Proof.
  induction d as [|[k' v'] d IH]; simpl.
  - destruct (eq_dec k k); congruence.
  - destruct (eq_dec k k') as [E|N]; simpl.
    + destruct (eq_dec k k'); congruence.
    + destruct (eq_dec k k'); congruence.
Qed.

Lemma dict_get_set_other d k k' v :
  k <> k' -> dict_get (dict_set d k v) k' = dict_get d k'.
Proof.
  intros N. induction d as [|[k0 v0] d IH]; simpl.
  - destruct (eq_dec k' k); congruence.
  - destruct (eq_dec k k0) as [E|N0]; simpl.
    + subst. destruct (eq_dec k' k0); congruence.
    + destruct (eq_dec k' k0); congruence.
Qed.

Lemma dict_keys_set d k v :
  dict_keys (dict_set d k v) =
  if dict_mem d k then dict_keys d else dict_keys d ++ [k].
Proof.
  unfold dict_mem, dict_keys. induction d as [|[k0 v0] d IH]; simpl; [reflexivity|].
  destruct (eq_dec k k0) as [E|N]; simpl; [reflexivity|].
  rewrite IH. destruct (dict_get d k); reflexivity.
Qed.

Lemma dict_mem_set d k k' v :
  dict_mem (dict_set d k v) k' = if eq_dec k k' then true else dict_mem d k'.
Proof.
  unfold dict_mem. destruct (eq_dec k k') as [E|N].
  - subst. now rewrite dict_get_set_same.
  - now rewrite dict_get_set_other.
Qed.

Lemma dict_set_idem d k v v' : dict_set (dict_set d k v) k v' = dict_set d k v'.
Proof.
  induction d as [|[k0 v0] d IH]; simpl.
  - destruct (eq_dec k k); congruence.
  - destruct (eq_dec k k0) as [E|N]; simpl.
    + destruct (eq_dec k k0); congruence.
    + destruct (eq_dec k k0); congruence.
Qed.
End DictFacts.

(** ** Note parsing *)

Example parse_plain : parse_note (VStr "answer") = Returns (VStr "answer", VNone).
Proof. reflexivity. Qed.
Example parse_named : parse_note (VStr "a:b:c") = Returns (VStr "a", VStr "b:c").
Proof. reflexivity. Qed.
Example parse_empty_name : parse_note (VStr "a:") = Returns (VStr "a", VStr "").
Proof. reflexivity. Qed.
Example parse_int : parse_note (VInt 42) = Returns (VInt 42, VNone).
Proof. reflexivity. Qed.
Example parse_trailing_nl : parse_note (VStr ("a:b" ++ nl)) = Returns (VStr "a", VStr "b").
Proof. reflexivity. Qed.
Example parse_inner_nl :
  parse_note (VStr ("a" ++ nl ++ "b")) =
  Raises (AttributeError "'NoneType' object has no attribute 'groups'").
Proof. reflexivity. Qed.

Section ParseFacts.
Local Open Scope string_scope.

Lemma contains_app c s t : contains c (s ++ t) = contains c s || contains c t.
Proof. induction s; simpl; [reflexivity|]. rewrite IHs. now rewrite orb_assoc. Qed.

Lemma string_of_rev_cons c taken :
string_of_list_ascii (rev (c :: taken)) =
string_of_list_ascii (rev taken) ++ String c EmptyString.
Proof.
simpl. generalize (rev taken) as l. induction l; simpl; congruence.
Qed.

Lemma append_assoc (a b c : string) : (a ++ b) ++ c = a ++ (b ++ c).
Proof. induction a; simpl; congruence. Qed.

Lemma append_nil_r (a : string) : a ++ "" = a.
Proof. induction a; simpl; congruence. Qed.

Lemma dot_star_end_no_newline n :
contains newline n = false -> dot_star_end n = Some n.
Proof.
induction n as [|c n IH]; simpl; [reflexivity|].
intros Hc. apply orb_false_iff in Hc as [Hc Hn].
unfold is_newline. rewrite Hc, (IH Hn). reflexivity.
Qed.

Lemma at_end_cons_false c s : is_newline c = false -> at_end (String c s) = false.
Proof. intros Hc. destruct s; simpl; auto. Qed.

(** Reading the base of a note without line breaks stops at the first
  colon, or at the end of the string. *)
Lemma lazy_base_colon taken b n :
contains newline b = false -> contains colon b = false ->
contains newline n = false ->
lazy_base taken (b ++ String colon n) =
Some (string_of_list_ascii (rev taken) ++ b, Some n).
Proof.
revert taken. induction b as [|c b IH]; intros taken Hb Hc Hn.
- simpl. rewrite (dot_star_end_no_newline _ Hn). now rewrite append_nil_r.
- simpl in Hb, Hc. apply orb_false_iff in Hb as [Hb1 Hb2].
  apply orb_false_iff in Hc as [Hc1 Hc2].
  cbn [append lazy_base]. unfold opt_name_end. rewrite Hc1.
  rewrite at_end_cons_false by exact Hb1.
  unfold is_newline at 1. rewrite Hb1.
  rewrite IH by assumption. rewrite string_of_rev_cons, append_assoc. reflexivity.
Qed.

Lemma lazy_base_plain taken s :
contains newline s = false -> contains colon s = false ->
lazy_base taken s = Some (string_of_list_ascii (rev taken) ++ s, None).
Proof.
revert taken. induction s as [|c s IH]; intros taken Hb Hc.
- simpl. now rewrite append_nil_r.
- simpl in Hb, Hc. apply orb_false_iff in Hb as [Hb1 Hb2].
  apply orb_false_iff in Hc as [Hc1 Hc2].
  cbn [lazy_base]. unfold opt_name_end. rewrite Hc1.
  rewrite at_end_cons_false by exact Hb1.
  unfold is_newline at 1. rewrite Hb1.
  rewrite IH by assumption. rewrite string_of_rev_cons, append_assoc. reflexivity.
Qed.

(** A string without [:] and without line breaks is its own base. *)
Lemma parse_note_plain s :
contains newline s = false -> contains colon s = false ->
parse_note (VStr s) = Returns (VStr s, VNone).
Proof.
intros Hn Hc. unfold parse_note, re_note_match.
now rewrite (lazy_base_plain [] _ Hn Hc).
Qed.

(** A string without line breaks is split at its first [:]. *)
Lemma parse_note_split b n :
contains newline b = false -> contains colon b = false ->
contains newline n = false ->
parse_note (VStr (b ++ String colon n)) = Returns (VStr b, VStr n).
Proof.
intros Hb Hc Hn. unfold parse_note, re_note_match.
now rewrite (lazy_base_colon [] _ _ Hb Hc Hn).
Qed.

(** Anything that is neither a string nor a tuple is its own base. *)
Lemma parse_note_opaque note :
(forall s, note <> VStr s) -> (forall l, note <> VTuple l) ->
parse_note note = Returns (note, VNone).
Proof.
intros Hs Ht. destruct note; try reflexivity.
- now destruct (Hs s).
- now destruct (Ht items).
Qed.

End ParseFacts.

(** A tuple is taken as the pair it is, and refused when it is not a pair. *)
Lemma parse_note_tuple (l : list value) :
  parse_note (VTuple l) =
  match l with
  | [basenote; name] => Returns (basenote, name)
  | _ => Raises (ValueError "tuple annotations must be length 2")
  end.
Proof. reflexivity. Qed.

Lemma parse_note_tuple_length (l : list value) :
  List.length l <> 2%nat ->
  parse_note (VTuple l) = Raises (ValueError "tuple annotations must be length 2").
Proof.
  intros Hl. destruct l as [|a [|b [|c l]]]; simpl in *; try reflexivity. congruence.
Qed.

Section ParseBase.
Local Open Scope string_scope.

Lemma dot_star_end_None_at_end r : dot_star_end r = None -> at_end r = false.
Proof.
destruct r as [|c r]; simpl; [discriminate|].
destruct (is_newline c) eqn:Hc; destruct r; simpl;
  try discriminate; reflexivity.
Qed.

Lemma dot_star_end_None_tail c r :
is_newline c = false -> dot_star_end (String c r) = None -> dot_star_end r = None.
Proof.
simpl. intros ->. destruct (dot_star_end r); [discriminate | reflexivity].
Qed.

(** Once the name part cannot be read to the end of the string, no longer
  base can be read either. *)
Lemma lazy_base_None taken r : dot_star_end r = None -> lazy_base taken r = None.
Proof.
revert taken. induction r as [|c r IH]; intros taken Hr; [discriminate|].
pose proof (dot_star_end_None_at_end _ Hr) as Hend.
cbn [lazy_base]. unfold opt_name_end. rewrite Hend.
destruct (is_newline c) eqn:Hc.
- assert (Ascii.eqb c colon = false) as ->.
  { unfold is_newline in Hc. apply Ascii.eqb_eq in Hc. subst c. reflexivity. }
  reflexivity.
- pose proof (dot_star_end_None_tail _ _ Hc Hr) as Hr'.
  rewrite Hr'. destruct (Ascii.eqb c colon); apply IH; exact Hr'.
Qed.

(** The base read off a string has neither a colon nor a line break. *)
Lemma lazy_base_clean taken rest g1 g2 :
lazy_base taken rest = Some (g1, g2) ->
exists pre, g1 = string_of_list_ascii (rev taken) ++ pre /\
            contains newline pre = false /\ contains colon pre = false.
Proof.
revert taken. induction rest as [|c rest IH]; intros taken.
- simpl. intros [= <- _]. exists "". now rewrite append_nil_r.
- cbn [lazy_base].
  destruct (opt_name_end (String c rest)) as [g|] eqn:Ho.
  + intros [= <- _]. exists "". now rewrite append_nil_r.
  + destruct (is_newline c) eqn:Hc; [discriminate|].
    destruct (Ascii.eqb c colon) eqn:Hcol.
    * unfold opt_name_end in Ho. rewrite Hcol in Ho.
      destruct (dot_star_end rest) eqn:Hd; [discriminate|].
      rewrite (lazy_base_None _ _ Hd). discriminate.
    * intros Hl. destruct (IH _ Hl) as (pre & -> & Hn & Hk).
      exists (String c pre). split; [|split].
      -- now rewrite string_of_rev_cons, append_assoc.
      -- simpl. unfold is_newline in Hc. now rewrite Hc.
      -- simpl. now rewrite Hcol.
Qed.

(** The base of a string note, taken as a note, is its own base. *)
Lemma parse_note_base_fixed s b n :
parse_note (VStr s) = Returns (b, n) ->
exists b', b = VStr b' /\ parse_note (VStr b') = Returns (VStr b', VNone).
Proof.
unfold parse_note, re_note_match.
destruct (lazy_base [] s) as [[g1 g2]|] eqn:Hl; [|discriminate].
intros [= <- _]. exists g1. split; [reflexivity|].
destruct (lazy_base_clean _ _ _ _ Hl) as (pre & -> & Hn & Hc). simpl.
fold (re_note_match pre). change (parse_note (VStr pre) = Returns (VStr pre, VNone)).
now apply parse_note_plain.
Qed.

End ParseBase.

(** C9 (Injector.parse_note). A string note with a line break inside is not
    split at all: the pattern of the class does not match it, and
    [parse_note] fails with an [AttributeError] where a base and a null name
    are expected. *)
Theorem parse_note_line_break :
  parse_note (VStr (String "a" (String newline (String "b" EmptyString)))) =
  Raises (AttributeError "'NoneType' object has no attribute 'groups'").
Proof. reflexivity. Qed.

(** ** Registration and lookup *)

Lemma lookup_skip R c up basenote :
  unregistered R c basenote -> lookup R (c :: up) basenote = lookup R up basenote.
Proof.
  intros Hu. simpl. destruct (dict_get R c) as [reg|] eqn:Hc; [|reflexivity].
  now rewrite (Hu reg Hc).
Qed.

Lemma lookup_here R c up basenote d :
  registered R c basenote d -> lookup R (c :: up) basenote = Returns d.
Proof. intros (reg & Hc & Hd). simpl. now rewrite Hc, Hd. Qed.

Lemma lookup_first R pre c post basenote d :
  Forall (fun c' => unregistered R c' basenote) pre ->
  registered R c basenote d ->
  lookup R (pre ++ c :: post) basenote = Returns d.
Proof.
  induction 1 as [|c' pre Hc' _ IH]; intros Hr; simpl app.
  - now apply lookup_here.
  - rewrite lookup_skip by assumption. now apply IH.
Qed.

Lemma lookup_found R mro basenote d :
  lookup R mro basenote = Returns d ->
  exists pre c post,
    mro = pre ++ c :: post /\
    Forall (fun c' => unregistered R c' basenote) pre /\
    registered R c basenote d.
Proof.
  induction mro as [|c up IH]; simpl; [discriminate|].
  destruct (dict_get R c) as [reg|] eqn:Hc.
  - destruct (dict_get reg basenote) as [p|] eqn:Hp.
    + intros [= ->]. exists [], c, up. repeat split; [constructor|].
      exists reg. auto.
    + intros Hl. destruct (IH Hl) as (pre & c0 & post & -> & Hpre & Hr).
      exists (c :: pre), c0, post. repeat split; [|exact Hr].
      constructor; [|exact Hpre]. intros reg' Hreg'. congruence.
  - intros Hl. destruct (IH Hl) as (pre & c0 & post & -> & Hpre & Hr).
    exists (c :: pre), c0, post. repeat split; [|exact Hr].
    constructor; [|exact Hpre]. intros reg' Hreg'. congruence.
Qed.

Lemma lookup_none R mro basenote :
  Forall (fun c => unregistered R c basenote) mro ->
  lookup R mro basenote = Raises (LookupError basenote).
Proof.
  induction 1 as [|c up Hc _ IH]; [reflexivity|].
  now rewrite lookup_skip.
Qed.

Lemma register_parsed c note basenote name p R :
  parse_note note = Returns (basenote, name) ->
  register c note p R =
  Returns (dict_set R c
             (dict_set (match dict_get R c with Some reg => reg | None => [] end)
                       basenote p)).
Proof. intros Hp. unfold register. now rewrite Hp. Qed.

Lemma register_registered c note basenote name p R R' :
  parse_note note = Returns (basenote, name) ->
  register c note p R = Returns R' ->
  registered R' c basenote p.
Proof.
  intros Hp. rewrite (register_parsed c _ _ _ p R Hp). intros [= <-].
  eexists. split; [apply dict_get_set_same|]. apply dict_get_set_same.
Qed.

Lemma register_other_class c note p R R' c' :
  register c note p R = Returns R' -> c <> c' -> dict_get R' c' = dict_get R c'.
Proof.
  unfold register. destruct (parse_note note) as [[b n]|]; [|discriminate].
  intros [= <-] N. now apply dict_get_set_other.
Qed.

Lemma register_other_mro c note p R R' mro basenote :
  register c note p R = Returns R' -> ~ In c mro ->
  lookup R' mro basenote = lookup R mro basenote.
Proof.
  intros Hr. induction mro as [|c' up IH]; intros Hn; [reflexivity|].
  simpl. rewrite (register_other_class _ _ _ _ _ c' Hr).
  - rewrite IH; [reflexivity|]. intros Hin. apply Hn. now right.
  - intros ->. apply Hn. now left.
Qed.

(** A resolution that is not served from [values] hands the descriptor that
    [lookup] finds for the base to [handle_provider]. *)
Lemma resolve_dispatch R mro fuel note basenote name d st :
  parse_note note = Returns (basenote, name) ->
  is_None name = false \/ dict_get (values st) basenote = None ->
  lookup R mro basenote = Returns d ->
  resolve R mro (S fuel) note st =
  handle_provider (resolve R mro fuel) d note basenote name st.
Proof.
  intros Hp Hc Hl. cbn [resolve]. unfold resolve_body, bind at 1, lift at 1.
  rewrite Hp. cbn [ret fst snd]. unfold bind at 1, gets. rewrite Hl.
  destruct Hc as [Hn|Hv].
  - rewrite Hn. reflexivity.
  - rewrite Hv. destruct (is_None name); reflexivity.
Qed.

(** C4 (Injector.register, Injector.lookup). Lookup returns the first
    registration met along the hierarchy of the querying class, the class
    itself first; after a class [S] registers a note, a lookup from [S]
    finds the descriptor of [S], the tables of all other classes are as
    before and a lookup from a hierarchy without [S] is unchanged; when no
    class of the hierarchy holds the base, lookup fails with a
    LookupError. *)
Theorem lookup_walks_hierarchy :
  forall (R R' : registries) (S : cls) (up T_mro : list cls)
         (note basenote name : value) (p : descriptor),
    parse_note note = Returns (basenote, name) ->
    register S note p R = Returns R' ->
    ~ In S T_mro ->
    (forall Rg mro b d,
        lookup Rg mro b = Returns d <->
        exists pre c post,
          mro = pre ++ c :: post /\
          Forall (fun c' => unregistered Rg c' b) pre /\
          registered Rg c b d) /\
    lookup R' (S :: up) basenote = Returns p /\
    (forall c, c <> S -> dict_get R' c = dict_get R c) /\
    (forall b, lookup R' T_mro b = lookup R T_mro b) /\
    (forall Rg mro b,
        Forall (fun c => unregistered Rg c b) mro ->
        lookup Rg mro b = Raises (LookupError b)).
Proof.
  intros R R' S up T_mro note basenote name p Hp Hr Hn.
  split; [|split; [|split; [|split]]].
  - intros Rg mro b d. split.
    + apply lookup_found.
    + intros (pre & c & post & -> & Hpre & Hc). now apply lookup_first.
  - apply lookup_here. eapply register_registered; eassumption.
  - intros c Hc. eapply register_other_class; [eassumption|]. congruence.
  - intros b. eapply register_other_mro; eassumption.
  - intros Rg mro b. apply lookup_none.
Qed.

Lemma lookup_walks_hierarchy_witness :
  lookup [("Injector", [(VStr "answer", DCallable (Sample.constant "base" (VInt 1)))]);
          ("Sub", [(VStr "answer", DCallable (Sample.constant "sub" (VInt 2)))])]
    ["Sub"; "Injector"; "object"] (VStr "answer") =
  Returns (DCallable (Sample.constant "sub" (VInt 2))) /\
  lookup [("Injector", [(VStr "answer", DCallable (Sample.constant "base" (VInt 1)))]);
          ("Sub", [(VStr "answer", DCallable (Sample.constant "sub" (VInt 2)))])]
    ["Injector"; "object"] (VStr "answer") =
  Returns (DCallable (Sample.constant "base" (VInt 1))).
Proof.
  destruct (lookup_walks_hierarchy
              [("Injector", [(VStr "answer", DCallable (Sample.constant "base" (VInt 1)))])]
              [("Injector", [(VStr "answer", DCallable (Sample.constant "base" (VInt 1)))]);
               ("Sub", [(VStr "answer", DCallable (Sample.constant "sub" (VInt 2)))])]
              "Sub" ["Injector"; "object"] ["Injector"; "object"]
              (VStr "answer") (VStr "answer") VNone
              (DCallable (Sample.constant "sub" (VInt 2))))
    as (_ & Hsub & _ & Hbase & _).
  - reflexivity.
  - reflexivity.
  - simpl. intuition discriminate.
  - split; [exact Hsub|]. rewrite Hbase. reflexivity.
Defined.

(** C10 (Injector.register, Injector.lookup). Registering under a string
    note stores the provider under the base of the note alone: the
    registries are the same as after registering under the base itself, and
    every resolution of a note with that base that is not served from the
    cache, named or not, hands that one descriptor to [handle_provider]. *)
Theorem register_ignores_name :
  forall (c : cls) (s : string) (b name : value) (p : descriptor) (R : registries),
    parse_note (VStr s) = Returns (b, name) ->
    register c (VStr s) p R = register c b p R /\
    exists R',
      register c (VStr s) p R = Returns R' /\
      (forall up, lookup R' (c :: up) b = Returns p) /\
      (forall up fuel note' name' st,
          parse_note note' = Returns (b, name') ->
          is_None name' = false \/ dict_get (values st) b = None ->
          resolve R' (c :: up) (S fuel) note' st =
          handle_provider (resolve R' (c :: up) fuel) p note' b name' st).
Proof.
  intros c s b name p R Hp.
  destruct (parse_note_base_fixed _ _ _ Hp) as (b' & -> & Hb).
  rewrite (register_parsed c _ _ _ p R Hp), (register_parsed c _ _ _ p R Hb).
  split; [reflexivity|].
  eexists. split; [reflexivity|].
  assert (forall up,
             lookup (dict_set R c
                       (dict_set match dict_get R c with
                                 | Some reg => reg
                                 | None => []
                                 end (VStr b') p)) (c :: up) (VStr b') = Returns p) as Hl.
  { intros up. apply lookup_here. eexists.
    split; [apply dict_get_set_same|]. apply dict_get_set_same. }
  split; [exact Hl|].
  intros up fuel note' name' st Hp' Hc.
  now apply resolve_dispatch.
Qed.

Lemma register_ignores_name_witness :
  register "Injector" (VStr "answer:ignored") (DGenerator (Sample.yield_once (VInt 42))) [] =
  register "Injector" (VStr "answer") (DGenerator (Sample.yield_once (VInt 42))) [].
Proof.
  apply (register_ignores_name "Injector" "answer:ignored" (VStr "answer")
           (VStr "ignored") (DGenerator (Sample.yield_once (VInt 42))) []).
  reflexivity.
Defined.

(** ** The monad of injector methods *)

(** A relation between the state before and after, kept by every step. *)
Section Respects.
Variable Rel : Injector -> Injector -> Prop.
Hypothesis Rel_refl : forall st, Rel st st.
Hypothesis Rel_trans : forall a b c, Rel a b -> Rel b c -> Rel a c.
Hypothesis Rel_record : forall e st, Rel st (record e st).
Hypothesis Rel_set_instance : forall k i st, Rel st (set_instance k i st).
Hypothesis Rel_set_value : forall k v st, Rel st (set_value k v st).

Lemma respects_ret {A} (a : A) : respects Rel (ret a).
Proof. intros st. apply Rel_refl. Qed.

Lemma respects_raise {A} e : respects Rel (@raise A e).
Proof. intros st. apply Rel_refl. Qed.

Lemma respects_lift {A} (o : outcome A) : respects Rel (lift o).
Proof. destruct o; [apply respects_ret | apply respects_raise]. Qed.

Lemma respects_gets {A} (f : Injector -> A) : respects Rel (gets f).
Proof. intros st. apply Rel_refl. Qed.

Lemma respects_bind {A B} (m : M A) (k : A -> M B) :
  respects Rel m -> (forall a, respects Rel (k a)) -> respects Rel (bind m k).
Proof.
  intros Hm Hk st. unfold bind. specialize (Hm st).
  destruct (m st) as [[a|e|] st']; simpl in *; auto.
  eapply Rel_trans; [exact Hm | apply Hk].
Qed.

Lemma respects_tagging {A} note (m : M A) :
  respects Rel m -> respects Rel (tagging_unset note m).
Proof.
  intros Hm st. unfold tagging_unset. specialize (Hm st).
  destruct (m st) as [[a|[]|] st']; simpl in *; auto.
Qed.

Lemma respects_call_target t basenote a kw name :
  respects Rel (call_target t basenote a kw name).
Proof.
  intros st. unfold call_target. destruct t as [held|f].
  - destruct (instance_get _ a kw name) as [r i'].
    eapply Rel_trans; [apply Rel_record|].
    eapply Rel_trans; [apply Rel_set_instance|]. apply respects_lift.
  - eapply Rel_trans; [apply Rel_record|]. apply respects_lift.
Qed.

Section Methods.
Variable R : registries.
Variable mro : list cls.
Variable self_resolve : value -> M value.
Hypothesis self_resolve_respects : forall note, respects Rel (self_resolve note).

Lemma respects_resolve_each ns : respects Rel (resolve_each self_resolve ns).
Proof.
  induction ns as [|n ns IH]; simpl; [apply respects_ret|].
  apply respects_bind; [apply self_resolve_respects|]. intros v.
  apply respects_bind; [exact IH|]. intros vs. apply respects_ret.
Qed.

Lemma respects_resolve_keywords kn kwargs :
  respects Rel (resolve_keywords self_resolve kn kwargs).
Proof.
  revert kwargs. induction kn as [|[arg note] kn IH]; intros kwargs; simpl.
  - apply respects_ret.
  - intros st. pose proof (self_resolve_respects note st) as H1.
    destruct (self_resolve note st) as [[v|e|] st']; simpl in *; auto.
    + eapply Rel_trans; [exact H1 | apply IH].
    + destruct e; simpl; auto. eapply Rel_trans; [exact H1 | apply IH].
Qed.

Lemma respects_fulfill ns kn : respects Rel (fulfill self_resolve ns kn).
Proof.
  unfold fulfill. apply respects_bind; [apply respects_resolve_each|].
  intros a. apply respects_bind; [apply respects_resolve_keywords|].
  intros kw. apply respects_ret.
Qed.

Lemma respects_partial a : respects Rel (partial_if_annotated self_resolve a).
Proof.
  destruct a; simpl; [apply respects_fulfill | apply respects_ret].
Qed.

Lemma respects_init_generator basenote fn :
  respects Rel (init_generator self_resolve basenote fn).
Proof.
  unfold init_generator. apply respects_bind; [apply respects_partial|].
  intros bound. apply respects_bind; [intros st; apply Rel_record|].
  intros _. apply respects_lift.
Qed.

Lemma respects_invoke t note basenote name :
  respects Rel (invoke self_resolve t note basenote name).
Proof.
  unfold invoke. apply respects_bind; [apply respects_partial|].
  intros bound. apply respects_tagging. destruct (is_None name).
  - apply respects_bind; [apply respects_call_target|]. intros v.
    apply respects_bind; [intros st; apply Rel_set_value|].
    intros _. apply respects_ret.
  - apply respects_call_target.
Qed.

Lemma respects_handle_provider d note basenote name :
  respects Rel (handle_provider self_resolve d note basenote name).
Proof.
  unfold handle_provider. apply respects_bind; [apply respects_gets|].
  intros [i|]; [apply respects_invoke|]. destruct d as [c|g|f].
  - apply respects_bind; [intros st; apply Rel_record|]. intros _.
    apply respects_bind; [apply respects_lift|]. intros self.
    apply respects_bind; [intros st; apply Rel_set_instance|]. intros _.
    apply respects_invoke.
  - apply respects_bind; [apply respects_init_generator|]. intros pv.
    apply respects_bind; [intros st; apply Rel_set_instance|]. intros _.
    apply respects_bind; [intros st; apply Rel_set_value|]. intros _.
    destruct (is_None name); [apply respects_ret | apply respects_invoke].
  - apply respects_invoke.
Qed.

Lemma respects_resolve_body note :
  respects Rel (resolve_body R mro self_resolve note).
Proof.
  unfold resolve_body. apply respects_bind; [apply respects_lift|].
  intros parsed. apply respects_bind; [apply respects_gets|]. intros cached.
  destruct (if is_None (snd parsed) then cached else None).
  - apply respects_ret.
  - apply respects_bind; [apply respects_lift|]. intros d.
    apply respects_handle_provider.
Qed.
End Methods.

Lemma respects_resolve R mro fuel note : respects Rel (resolve R mro fuel note).
Proof.
  revert note. induction fuel as [|fuel IH]; intros note.
  - intros st. apply Rel_refl.
  - simpl. apply respects_resolve_body. exact IH.
Qed.
End Respects.

(** Resolution never reorders or drops materialized providers: new ones
    are appended to [instances]. *)
Lemma resolve_appends_instances R mro fuel note st :
  appends_instances st (snd (resolve R mro fuel note st)).
Proof.
  apply (respects_resolve appends_instances).
  - intros s. exists []. now rewrite app_nil_r.
  - intros a b c [n1 H1] [n2 H2]. exists (n1 ++ n2).
    now rewrite H2, H1, app_assoc.
  - intros e s. exists []. now rewrite app_nil_r.
  - intros k i s. unfold appends_instances. cbn [set_instance instances].
    rewrite dict_keys_set. destruct (dict_mem (instances s) k).
    + exists []. now rewrite app_nil_r.
    + now exists [k].
  - intros k v s. exists []. now rewrite app_nil_r.
Qed.

(** *** Methods that ignore the [closed] flag *)

Lemma oblivious_ret {A} (a : A) : oblivious (ret a).
Proof. intros b st. reflexivity. Qed.

Lemma oblivious_raise {A} e : oblivious (@raise A e).
Proof. intros b st. reflexivity. Qed.

Lemma oblivious_lift {A} (o : outcome A) : oblivious (lift o).
Proof. destruct o; [apply oblivious_ret | apply oblivious_raise]. Qed.

Lemma oblivious_gets {A} (f : Injector -> A) :
  (forall b st, f (set_closed b st) = f st) -> oblivious (gets f).
Proof. intros Hf b st. unfold gets. now rewrite Hf. Qed.

Lemma oblivious_modify (f : Injector -> Injector) :
  (forall b st, f (set_closed b st) = set_closed b (f st)) -> oblivious (modify f).
Proof. intros Hf b st. unfold modify. now rewrite Hf. Qed.

Lemma oblivious_bind {A B} (m : M A) (k : A -> M B) :
  oblivious m -> (forall a, oblivious (k a)) -> oblivious (bind m k).
Proof.
  intros Hm Hk b st. unfold bind. rewrite Hm.
  destruct (m st) as [[a|e|] st']; simpl; try reflexivity. apply Hk.
Qed.

Lemma oblivious_tagging {A} note (m : M A) :
  oblivious m -> oblivious (tagging_unset note m).
Proof.
  intros Hm b st. unfold tagging_unset. rewrite Hm.
  destruct (m st) as [[a|[]|] st']; reflexivity.
Qed.

Lemma oblivious_record e : oblivious (modify (record e)).
Proof. apply oblivious_modify. reflexivity. Qed.

Lemma oblivious_set_instance k i : oblivious (modify (set_instance k i)).
Proof. apply oblivious_modify. reflexivity. Qed.

Lemma oblivious_set_value k v : oblivious (modify (set_value k v)).
Proof. apply oblivious_modify. reflexivity. Qed.

Lemma oblivious_call_target t basenote a kw name :
  oblivious (call_target t basenote a kw name).
Proof.
  intros b st. unfold call_target. destruct t as [held|f].
  - cbn [set_closed instances].
    destruct (instance_get _ a kw name) as [r i']. destruct r; reflexivity.
  - destruct (fn_call f a kw name); reflexivity.
Qed.

Section ObliviousMethods.
Variable R : registries.
Variable mro : list cls.
Variable self_resolve : value -> M value.
Hypothesis self_resolve_oblivious : forall note, oblivious (self_resolve note).

Lemma oblivious_resolve_each ns : oblivious (resolve_each self_resolve ns).
Proof.
  induction ns as [|n ns IH]; simpl; [apply oblivious_ret|].
  apply oblivious_bind; [apply self_resolve_oblivious|]. intros v.
  apply oblivious_bind; [exact IH|]. intros vs. apply oblivious_ret.
Qed.

Lemma oblivious_resolve_keywords kn kwargs :
  oblivious (resolve_keywords self_resolve kn kwargs).
Proof.
  revert kwargs. induction kn as [|[arg note] kn IH]; intros kwargs; simpl.
  - apply oblivious_ret.
  - intros b st. rewrite self_resolve_oblivious.
    destruct (self_resolve note st) as [[v|e|] st']; simpl; try reflexivity.
    + apply IH.
    + destruct e; try reflexivity. apply IH.
Qed.

Lemma oblivious_partial a : oblivious (partial_if_annotated self_resolve a).
Proof.
  destruct a; simpl; [|apply oblivious_ret].
  unfold prepare, fulfill. apply oblivious_bind; [apply oblivious_resolve_each|].
  intros args. apply oblivious_bind; [apply oblivious_resolve_keywords|].
  intros kw. apply oblivious_ret.
Qed.

Lemma oblivious_invoke t note basenote name :
  oblivious (invoke self_resolve t note basenote name).
Proof.
  unfold invoke. apply oblivious_bind; [apply oblivious_partial|].
  intros bound. apply oblivious_tagging. destruct (is_None name).
  - apply oblivious_bind; [apply oblivious_call_target|]. intros v.
    apply oblivious_bind; [apply oblivious_set_value|].
    intros _. apply oblivious_ret.
  - apply oblivious_call_target.
Qed.

Lemma oblivious_handle_provider d note basenote name :
  oblivious (handle_provider self_resolve d note basenote name).
Proof.
  unfold handle_provider. apply oblivious_bind; [now apply oblivious_gets|].
  intros [i|]; [apply oblivious_invoke|]. destruct d as [c|g|f].
  - apply oblivious_bind; [apply oblivious_record|]. intros _.
    apply oblivious_bind; [apply oblivious_lift|]. intros self.
    apply oblivious_bind; [apply oblivious_set_instance|]. intros _.
    apply oblivious_invoke.
  - apply oblivious_bind.
    { unfold init_generator. apply oblivious_bind; [apply oblivious_partial|].
      intros bound. apply oblivious_bind; [apply oblivious_record|].
      intros _. apply oblivious_lift. }
    intros pv.
    apply oblivious_bind; [apply oblivious_set_instance|]. intros _.
    apply oblivious_bind; [apply oblivious_set_value|]. intros _.
    destruct (is_None name); [apply oblivious_ret | apply oblivious_invoke].
  - apply oblivious_invoke.
Qed.

Lemma oblivious_resolve_body note :
  oblivious (resolve_body R mro self_resolve note).
Proof.
  unfold resolve_body. apply oblivious_bind; [apply oblivious_lift|].
  intros parsed. apply oblivious_bind; [now apply oblivious_gets|]. intros cached.
  destruct (if is_None (snd parsed) then cached else None).
  - apply oblivious_ret.
  - apply oblivious_bind; [apply oblivious_lift|]. intros d.
    apply oblivious_handle_provider.
Qed.
End ObliviousMethods.

(** [resolve] neither reads nor writes the [closed] flag. *)
Lemma oblivious_resolve R mro fuel note : oblivious (resolve R mro fuel note).
Proof.
  revert note. induction fuel as [|fuel IH]; intros note.
  - intros b st. reflexivity.
  - simpl. apply oblivious_resolve_body. exact IH.
Qed.

(** ** Closing an injector *)

Example sample_registry_by_register :
  register "Injector" (VStr "answer:ignored") (DGenerator (Sample.yield_once (VInt 42))) [] =
  Returns [("Injector", [(VStr "answer", DGenerator (Sample.yield_once (VInt 42)))])].
Proof. reflexivity. Qed.

Example two_providers_state :
  dict_keys (instances Sample.two_providers) = [VStr "first"; VStr "second"] /\
  values Sample.two_providers = [(VStr "first", VInt 1); (VStr "second", VInt 2)] /\
  closed Sample.two_providers = false.
Proof. repeat split. Qed.

(** The demonstration of the module: providers are closed in the order in
    which they were materialized, and closing twice is an error. *)
Example demonstration_close :
  let st := snd (Sample.resolve_in "greeting:there"
                   (snd (Sample.resolve_in "greeting"
                           (snd (Sample.resolve_in "answer" Injector_init))))) in
  fst (close st) = Ok tt /\
  calls (snd (close st)) =
    [Initialized (VStr "answer") [] [];
     Initialized (VStr "greeting") [] [];
     Got (VStr "greeting") [] [] (Some (VStr "there"));
     Closed (VStr "answer"); Closed (VStr "greeting")] /\
  fst (close (snd (close st))) = Raise (RuntimeError "already closed").
Proof. repeat split. Qed.

Lemma close_each_ok items :
  Forall (fun ki => close_succeeds (snd ki)) items ->
  close_each items = (Ok tt, map closed_item items, map Closed (dict_keys items)).
Proof.
  induction 1 as [|[k i] items Hi _ IH]; [reflexivity|].
  unfold close_succeeds in Hi. cbn [snd] in Hi.
  cbn [close_each map dict_keys fst]. unfold closed_item at 1. cbn [fst snd].
  destruct (instance_close i) as [r i']. cbn [fst snd] in *. subst r.
  rewrite IH. reflexivity.
Qed.

Lemma close_each_fail pre k i post e :
  Forall (fun ki => close_succeeds (snd ki)) pre ->
  close_fails i e ->
  close_each (pre ++ (k, i) :: post) =
  (Raise e, map closed_item pre ++ closed_item (k, i) :: post,
   map Closed (dict_keys pre) ++ [Closed k]).
Proof.
  intros Hpre Hi. induction Hpre as [|[k0 i0] pre H0 _ IH].
  - unfold close_fails in Hi. cbn [app map dict_keys close_each].
    unfold closed_item. cbn [fst snd].
    destruct (instance_close i) as [r i']. cbn [fst snd] in *. now subst r.
  - unfold close_succeeds in H0. cbn [snd] in H0.
    cbn [app close_each map dict_keys fst]. unfold closed_item at 1. cbn [fst snd].
    destruct (instance_close i0) as [r i0']. cbn [fst snd] in *. subst r.
    rewrite IH. reflexivity.
Qed.

Lemma close_each_Ok_inv items r items' evs :
  close_each items = (r, items', evs) ->
  match r with
  | Ok _ =>
      Forall (fun ki => close_succeeds (snd ki)) items /\
      items' = map closed_item items /\
      evs = map Closed (dict_keys items)
  | Raise e =>
      exists pre k i post,
        items = pre ++ (k, i) :: post /\
        Forall (fun ki => close_succeeds (snd ki)) pre /\
        close_fails i e
  | OutOfFuel => False
  end.
Proof.
  revert r items' evs. induction items as [|[k i] items IH]; intros r items' evs.
  - simpl. intros [= <- <- <-]. repeat split. constructor.
  - cbn [close_each].
    destruct (instance_close i) as [ri i'] eqn:Hi.
    destruct ri as [[]|e].
    + destruct (close_each items) as [[r0 it0] ev0] eqn:Hrest.
      intros [= <- <- <-]. specialize (IH _ _ _ eq_refl).
      destruct r0 as [[]|e|]; [| |exact IH].
      * destruct IH as (Hall & -> & ->). repeat split.
        -- constructor; [|exact Hall]. unfold close_succeeds. cbn [snd]. now rewrite Hi.
        -- unfold closed_item at 2. cbn [map fst snd]. now rewrite Hi.
      * destruct IH as (pre & k1 & i1 & post & -> & Hpre & Hf).
        exists ((k, i) :: pre), k1, i1, post. repeat split; [|exact Hf].
        constructor; [|exact Hpre]. unfold close_succeeds. cbn [snd]. now rewrite Hi.
    + intros [= <- <- <-]. exists [], k, i, items. repeat split; [constructor|].
      unfold close_fails. now rewrite Hi.
Qed.

Lemma dict_keys_closed_items (items : dict value instance) :
  dict_keys (map closed_item items) = dict_keys items.
Proof.
  unfold dict_keys. rewrite map_map. apply map_ext. now intros [k i].
Qed.

(** The failure of one provider's [close] ends [Injector.close] on the
    spot: the provider ["second"] materialized after the failing one is
    never closed. *)
Lemma close_skips_later_providers :
  dict_keys (instances Sample.two_providers) = [VStr "first"; VStr "second"] /\
  fst (close Sample.two_providers) = Raise (Exception (VStr "close failed")) /\
  ~ In (Closed (VStr "second")) (calls (snd (close Sample.two_providers))).
Proof.
  split; [reflexivity|]. split; [reflexivity|].
  vm_compute. intuition discriminate.
Qed.

(** C1 (Injector.close), as the code has it. When the close of a
    materialized provider raises, [Injector.close] raises that very error at
    once: the providers before it (in the order of [instances]) and the
    failing one were each closed once, the providers after it are left as
    they are and receive no call, and the injector is not marked closed. *)
Theorem close_stops_at_first_failure :
  forall (st : Injector) (pre post : dict value instance) (k : value)
         (i : instance) (e : exn),
    closed st = false ->
    instances st = pre ++ (k, i) :: post ->
    Forall (fun ki => close_succeeds (snd ki)) pre ->
    close_fails i e ->
    close st =
    (Raise e,
     {| closed := false;
        instances := map closed_item pre ++ closed_item (k, i) :: post;
        values := values st;
        calls := calls st ++ map Closed (dict_keys pre) ++ [Closed k] |}).
Proof.
  intros st pre post k i e Hc Hi Hpre Hf. unfold close.
  rewrite Hc, Hi, (close_each_fail pre k i post e Hpre Hf). reflexivity.
Qed.

Lemma close_stops_at_first_failure_witness :
  fst (close Sample.two_providers) = Raise (Exception (VStr "close failed")) /\
  calls (snd (close Sample.two_providers)) =
  calls Sample.two_providers ++ [Closed (VStr "first")].
Proof.
  rewrite (close_stops_at_first_failure Sample.two_providers []
             [(VStr "second", ClassInstance (Sample.holder (VInt 2) false) VNone)]
             (VStr "first") (ClassInstance (Sample.holder (VInt 1) true) VNone)
             (Exception (VStr "close failed"))).
  - split; reflexivity.
  - reflexivity.
  - reflexivity.
  - constructor.
  - reflexivity.
Defined.

(** An injector that was closed still resolves notes. And when [close]
    succeeds after an attempt that failed, the flag is set although a
    provider was closed twice: the first attempt closed ["second"] before
    it failed on ["flaky"], and the second attempt starts over. *)
Lemma closed_injector_resolves_and_closed_twice :
  (exists st,
     close Injector_init = (Ok tt, st) /\
     closed st = true /\
     fst (resolve Sample.registry Sample.mro 1 (VStr "answer") st) = Ok (VInt 42)) /\
  (exists st0 st1 st2,
     st0 = snd (resolve Sample.retry_registry Sample.mro 1 (VStr "flaky")
                  (snd (resolve Sample.retry_registry Sample.mro 1 (VStr "second")
                          Injector_init))) /\
     close st0 = (Raise (Exception (VStr "close failed")), st1) /\
     close st1 = (Ok tt, st2) /\
     closed st2 = true /\
     calls st2 =
     calls st0 ++ [Closed (VStr "second"); Closed (VStr "flaky");
                   Closed (VStr "second"); Closed (VStr "flaky")]).
Proof.
  split.
  - eexists. split; [reflexivity|]. split; reflexivity.
  - eexists. eexists. eexists.
    split; [reflexivity|]. split; [reflexivity|]. split; [reflexivity|].
    split; reflexivity.
Qed.

(** C2 (Injector.close, Injector.resolve), as the code has it. A [close]
    that succeeds sets the flag and closes, in that call, every provider of
    [instances] exactly once, in the order of [instances] (which is the
    order in which resolution materialized them: it only ever appends);
    what earlier attempts closed is in the trace before it. A second
    [close] fails with the already-closed RuntimeError; [resolve] does not
    look at the flag and goes on exactly as on an open injector. *)
Theorem close_then_closed :
  forall (st st' : Injector),
    close st = (Ok tt, st') ->
    closed st' = true /\
    calls st' = calls st ++ map Closed (dict_keys (instances st)) /\
    dict_keys (instances st') = dict_keys (instances st) /\
    (forall R mro fuel note s, appends_instances s (snd (resolve R mro fuel note s))) /\
    close st' = (Raise (RuntimeError "already closed"), st') /\
    (forall R mro fuel note,
        resolve R mro fuel note st' =
        (fst (resolve R mro fuel note (set_closed false st')),
         set_closed true (snd (resolve R mro fuel note (set_closed false st'))))).
Proof.
  intros st st' Hc. unfold close in Hc.
  destruct (closed st) eqn:Hcl; [discriminate|].
  destruct (close_each (instances st)) as [[r items] evs] eqn:He.
  pose proof (close_each_Ok_inv _ _ _ _ He) as Hinv.
  destruct r as [[]|e|]; try discriminate.
  destruct Hinv as (Hall & -> & ->). injection Hc as <-.
  split; [reflexivity|]. split; [reflexivity|].
  split; [apply dict_keys_closed_items|].
  split; [intros; apply resolve_appends_instances|].
  split; [reflexivity|].
  intros R mro fuel note.
  rewrite <- (oblivious_resolve R mro fuel note true). reflexivity.
Qed.

Lemma close_then_closed_witness :
  closed (snd (close (snd (Sample.resolve_in "answer" Injector_init)))) = true /\
  calls (snd (close (snd (Sample.resolve_in "answer" Injector_init)))) =
  [Initialized (VStr "answer") [] []; Closed (VStr "answer")].
Proof.
  destruct (close_then_closed (snd (Sample.resolve_in "answer" Injector_init))
              (snd (close (snd (Sample.resolve_in "answer" Injector_init))))
              eq_refl) as (H1 & H2 & _).
  split; [exact H1 | exact H2].
Defined.

(** ** Resolution *)

(** An unnamed call that returns leaves the value in [values]. *)
Lemma invoke_unnamed_caches rec t note basenote v st st' :
  invoke rec t note basenote VNone st = (Ok v, st') ->
  dict_get (values st') basenote = Some v.
Proof.
  unfold invoke, bind at 1.
  destruct (partial_if_annotated rec (target_annotations t) st) as [[bound| |] st1];
    try discriminate.
  cbn [is_None]. unfold tagging_unset, bind, modify, ret.
  destruct (call_target t basenote (fst bound) (snd bound) None st1) as [[v1|e|] st2].
  - intros [= <- <-]. cbn [set_value values]. apply dict_get_set_same.
  - destruct e; discriminate.
  - discriminate.
Qed.

Lemma handle_provider_unnamed_caches rec d note basenote v st st' :
  handle_provider rec d note basenote VNone st = (Ok v, st') ->
  dict_get (values st') basenote = Some v.
Proof.
  unfold handle_provider, bind at 1, gets.
  destruct (dict_get (instances st) basenote) as [i|].
  - apply invoke_unnamed_caches.
  - destruct d as [c|g|f].
    + unfold bind at 1, modify. unfold bind at 1.
      destruct (lift (new c [] []) (record (Constructed basenote) st)) as [[self|e|] st1];
        try discriminate.
      unfold bind at 1. apply invoke_unnamed_caches.
    + unfold bind at 1.
      destruct (init_generator rec basenote g st) as [[pv|e|] st1]; try discriminate.
      cbn [is_None]. unfold bind, modify, ret. intros [= <- <-].
      cbn [set_value values]. apply dict_get_set_same.
    + apply invoke_unnamed_caches.
Qed.

(** The fast path of [resolve]: an unnamed note whose base is in [values]
    is answered from there, and nothing else happens. *)
Lemma resolve_cached R mro fuel note basenote v st :
  parse_note note = Returns (basenote, VNone) ->
  dict_get (values st) basenote = Some v ->
  resolve R mro (S fuel) note st = (Ok v, st).
Proof.
  intros Hp Hv. cbn [resolve]. unfold resolve_body, bind at 1, lift at 1.
  rewrite Hp. cbn [ret fst snd is_None]. unfold bind at 1, gets. now rewrite Hv.
Qed.

Lemma resolve_unnamed_caches R mro fuel note basenote v st st' :
  parse_note note = Returns (basenote, VNone) ->
  resolve R mro fuel note st = (Ok v, st') ->
  dict_get (values st') basenote = Some v.
Proof.
  intros Hp. destruct fuel as [|fuel]; [discriminate|].
  cbn [resolve]. unfold resolve_body, bind at 1, lift at 1.
  rewrite Hp. cbn [ret fst snd is_None]. unfold bind at 1, gets.
  destruct (dict_get (values st) basenote) as [v0|] eqn:Hv.
  - unfold ret. now intros [= <- <-].
  - unfold bind at 1.
    destruct (lookup R mro basenote) as [d|e]; cbn [lift ret raise]; [|discriminate].
    apply handle_provider_unnamed_caches.
Qed.

(** C3 (Injector.resolve, Injector.handle_provider). Once an unnamed
    resolution of a base has returned a value, the value is in [values], and
    every further unnamed resolution of that base on the same injector
    returns it and leaves the injector, the record of calls into providers
    included, exactly as it was. *)
Theorem resolve_unnamed_idempotent :
  forall (R : registries) (mro : list cls) (fuel : nat)
         (note basenote v : value) (st st' : Injector),
    parse_note note = Returns (basenote, VNone) ->
    resolve R mro fuel note st = (Ok v, st') ->
    dict_get (values st') basenote = Some v /\
    forall fuel', resolve R mro (S fuel') note st' = (Ok v, st').
Proof.
  intros R mro fuel note basenote v st st' Hp Hr.
  pose proof (resolve_unnamed_caches R mro fuel note basenote v st st' Hp Hr) as Hv.
  split; [exact Hv|]. intros fuel'. now apply resolve_cached with basenote.
Qed.

Lemma resolve_unnamed_idempotent_witness :
  resolve Sample.registry Sample.mro 1 (VStr "first")
    (snd (Sample.resolve_in "first" Injector_init)) =
  (Ok (VInt 1), snd (Sample.resolve_in "first" Injector_init)).
Proof.
  apply (resolve_unnamed_idempotent Sample.registry Sample.mro 5
           (VStr "first") (VStr "first") (VInt 1) Injector_init
           (snd (Sample.resolve_in "first" Injector_init))); reflexivity.
Defined.

Lemma dict_set_same {K V} `{EqDec K} (d : dict K V) k v :
  dict_get d k = Some v -> dict_set d k v = d.
Proof.
  induction d as [|[k0 v0] d IH]; simpl; [discriminate|].
  destruct (eq_dec k k0) as [E|N].
  - now intros [= ->].
  - intros Hd. now rewrite IH.
Qed.

(** What a successful [init_generator] returns: the provider built from
    the function, paused after its first [yield], with the value yielded. *)
Lemma init_generator_Ok rec basenote g st p v st1 :
  init_generator rec basenote g st = (Ok (p, v), st1) ->
  function p = g /\ init_value p = v /\
  exists a kw frame, start g a kw = Yields v frame /\ generator p = Suspended frame.
Proof.
  unfold init_generator, bind at 1.
  destruct (partial_if_annotated rec (gen_annotations g) st) as [[bound| |] st0];
    try discriminate.
  unfold bind, modify, GeneratorProvider_init.
  destruct (start g (fst bound) (snd bound)) as [v0 frame| |e] eqn:Hs;
    cbn [lift ret raise]; try discriminate.
  intros [= <- <- <-]. cbn. repeat split. now exists (fst bound), (snd bound), frame.
Qed.

(** A generator function without annotations is initialized with no
    arguments, whatever the injector holds. *)
Lemma init_generator_plain rec basenote g st :
  gen_annotations g = None ->
  init_generator rec basenote g st =
  lift (GeneratorProvider_init g [] []) (record (Initialized basenote [] []) st).
Proof. intros Ha. unfold init_generator. rewrite Ha. reflexivity. Qed.

(** A named [get] on a generator provider without name support *)
Lemma GeneratorProvider_get_unsupported p name :
  support_name (function p) = false -> is_None name = false ->
  GeneratorProvider_get p name =
  (Raises (TypeError "generator does not support get-by-name"), p).
Proof. intros Hs Hn. unfold GeneratorProvider_get. now rewrite Hn, Hs. Qed.

(** C6 (GeneratorProvider, Injector.handle_provider). For a generator
    function registered without name support and not yet materialized, once
    its initialization succeeds the unnamed resolution returns the value
    yielded at init; a second unnamed resolution returns it again and
    changes nothing (no further call into the provider); a name-qualified
    resolution of the same base raises the TypeError of
    [GeneratorProvider.get] and leaves [values] and [instances] as they
    were. *)
Theorem generator_without_name_support :
  forall (R : registries) (mro : list cls) (fuel : nat) (g : generator_function)
         (note basenote v : value) (p : GeneratorProvider) (st st1 : Injector),
    parse_note note = Returns (basenote, VNone) ->
    lookup R mro basenote = Returns (DGenerator g) ->
    support_name g = false ->
    dict_get (instances st) basenote = None ->
    dict_get (values st) basenote = None ->
    init_generator (resolve R mro fuel) basenote g st = (Ok (p, v), st1) ->
    let st' := set_value basenote v (set_instance basenote (GeneratorInstance p) st1) in
    resolve R mro (S fuel) note st = (Ok v, st') /\
    (init_value p = v /\ exists a kw frame, start g a kw = Yields v frame) /\
    (forall fuel', resolve R mro (S fuel') note st' = (Ok v, st')) /\
    (forall fuel' note' name,
        parse_note note' = Returns (basenote, name) ->
        is_None name = false ->
        exists st'',
          resolve R mro (S fuel') note' st' =
          (Raise (TypeError "generator does not support get-by-name"), st'') /\
          values st'' = values st' /\
          instances st'' = instances st' /\
          calls st'' = calls st' ++ [Got basenote [] [] (Some name)]) /\
    (forall note' name,
        parse_note note' = Returns (basenote, name) ->
        is_None name = false ->
        resolve R mro (S fuel) note' st =
        (Raise (TypeError "generator does not support get-by-name"),
         record (Got basenote [] [] (Some name)) st')).
Proof.
  intros R mro fuel g note basenote v p st st1 Hp Hl Hs Hi Hv Hinit st'.
  destruct (init_generator_Ok _ _ _ _ _ _ _ Hinit)
    as (Hf & Hiv & a & kw & frame & Hstart & _).
  assert (dict_get (instances st') basenote = Some (GeneratorInstance p)) as Hi'.
  { unfold st'. cbn [set_value set_instance instances]. apply dict_get_set_same. }
  assert (dict_get (values st') basenote = Some v) as Hv'.
  { unfold st'. cbn [set_value values]. apply dict_get_set_same. }
  split; [|split; [|split; [|split]]].
  - rewrite (resolve_dispatch R mro fuel note basenote VNone (DGenerator g) st Hp
               (or_intror Hv) Hl).
    unfold handle_provider, bind at 1, gets. rewrite Hi.
    unfold bind at 1. rewrite Hinit. reflexivity.
  - split; [exact Hiv|]. now exists a, kw, frame.
  - intros fuel'. now apply resolve_cached with basenote.
  - intros fuel' note' name Hp' Hn.
    rewrite (resolve_dispatch R mro fuel' note' basenote name (DGenerator g) st' Hp'
               (or_introl Hn) Hl).
    unfold handle_provider, bind at 1, gets. rewrite Hi'.
    unfold invoke. cbn [target_annotations partial_if_annotated].
    unfold bind at 1, ret. cbn [fst snd]. rewrite Hn.
    unfold tagging_unset, call_target. rewrite Hi'.
    cbn [instance_get name_or_None].
    rewrite GeneratorProvider_get_unsupported by (rewrite ?Hf; assumption).
    cbn [lift raise]. eexists. split; [reflexivity|].
    cbn [set_instance record values instances calls].
    split; [reflexivity|]. split; [|reflexivity].
    now apply dict_set_same.
  - intros note' name Hp' Hn.
    rewrite (resolve_dispatch R mro fuel note' basenote name (DGenerator g) st Hp'
               (or_introl Hn) Hl).
    unfold handle_provider, bind at 1, gets. rewrite Hi.
    unfold bind at 1. rewrite Hinit.
    unfold bind at 1, modify. unfold bind at 1. rewrite Hn. cbn [fst snd].
    fold st'. unfold invoke. cbn [target_annotations partial_if_annotated].
    unfold bind at 1, ret. cbn [fst snd]. rewrite Hn.
    unfold tagging_unset, call_target. rewrite Hi'.
    cbn [instance_get name_or_None].
    rewrite GeneratorProvider_get_unsupported by (rewrite ?Hf; assumption).
    cbn [lift raise]. f_equal.
    unfold set_instance, record. cbn [closed instances values calls]. f_equal.
    now apply dict_set_same.
Qed.

Lemma generator_without_name_support_witness :
  resolve Sample.registry Sample.mro 1 (VStr "answer") Injector_init =
  (Ok (VInt 42),
   {| closed := false;
      instances :=
        [(VStr "answer",
          GeneratorInstance
            {| function := Sample.yield_once (VInt 42);
               generator := Suspended VNone; init_value := VInt 42 |})];
      values := [(VStr "answer", VInt 42)];
      calls := [Initialized (VStr "answer") [] []] |}).
Proof.
  apply (generator_without_name_support Sample.registry Sample.mro 0
           (Sample.yield_once (VInt 42)) (VStr "answer") (VStr "answer") (VInt 42)
           {| function := Sample.yield_once (VInt 42);
              generator := Suspended VNone; init_value := VInt 42 |}
           Injector_init
           (record (Initialized (VStr "answer") [] []) Injector_init));
    reflexivity.
Defined.

(** ** Fulfilling annotations *)

Lemma resolve_each_fails rec pre n post st vs s1 e s2 :
  resolve_each rec pre st = (Ok vs, s1) ->
  rec n s1 = (Raise e, s2) ->
  resolve_each rec (pre ++ n :: post) st = (Raise e, s2).
Proof.
  revert st vs. induction pre as [|m pre IH]; intros st vs.
  - cbn [resolve_each app]. unfold ret. intros [= _ <-] Hn.
    unfold bind at 1. now rewrite Hn.
  - cbn [resolve_each app]. unfold bind.
    destruct (rec m st) as [[v| |] st0]; try discriminate.
    destruct (resolve_each rec pre st0) as [[vs0| |] st1] eqn:Hpre; try discriminate.
    unfold ret. intros [= _ <-] Hn.
    now rewrite (IH st0 vs0 Hpre Hn).
Qed.

Lemma resolve_keywords_skips rec kn1 arg note kn2 kwargs st kw1 s1 x s2 :
  resolve_keywords rec kn1 kwargs st = (Ok kw1, s1) ->
  rec note s1 = (Raise (UnsetError x), s2) ->
  resolve_keywords rec (kn1 ++ (arg, note) :: kn2) kwargs st =
  resolve_keywords rec kn2 kw1 s2.
Proof.
  revert kwargs st. induction kn1 as [|[a n] kn1 IH]; intros kwargs st.
  - cbn [resolve_keywords app]. unfold ret. intros [= <- <-] Hn. now rewrite Hn.
  - cbn [resolve_keywords app].
    destruct (rec n st) as [[v|e|] st0]; try discriminate.
    + apply IH.
    + destruct e; try discriminate. apply IH.
Qed.

(** Only the arguments of the keyword notes, and those bound before, are
    bound after the loop. *)
Lemma resolve_keywords_binds rec kn kwargs st kw s arg :
  resolve_keywords rec kn kwargs st = (Ok kw, s) ->
  dict_get kwargs arg = None -> ~ In arg (dict_keys kn) ->
  dict_get kw arg = None.
Proof.
  revert kwargs st. induction kn as [|[a n] kn IH]; intros kwargs st.
  - cbn [resolve_keywords]. unfold ret. now intros [= <- _].
  - cbn [resolve_keywords dict_keys map fst]. intros Hr Hk Hn.
    assert (a <> arg) as Ha by (intros ->; apply Hn; now left).
    assert (~ In arg (dict_keys kn)) as Hn' by (intros Hin; apply Hn; now right).
    destruct (rec n st) as [[v|e|] st0]; try discriminate.
    + apply (IH _ _ Hr); [|exact Hn']. now rewrite dict_get_set_other.
    + destruct e; try discriminate. now apply (IH _ _ Hr).
Qed.

(** The demonstration of the module: the factory [error] raises
    UnsetError; as a positional dependency it aborts with the note
    attached, as a keyword dependency it is left out. *)
Example positional_error :
  fst (Injector_fulfill Sample.registry Sample.mro 1 [VStr "error"] [] Injector_init) =
  Raise (UnsetError (VStr "error")).
Proof. reflexivity. Qed.

Example keyword_error :
  fst (Injector_fulfill Sample.registry Sample.mro 1
         [VStr "answer"] [("unused", VStr "error")] Injector_init) =
  Ok ([VInt 42], []).
Proof. reflexivity. Qed.

(** A dependency of a dependency: the [get] of ["relay"] is annotated with
    ["error"]; the error that ends the fulfillment carries ["error"], the
    note whose provider raised it. *)
Example positional_error_nested :
  fst (Injector_fulfill Sample.registry Sample.mro 2 [VStr "relay"] [] Injector_init) =
  Raise (UnsetError (VStr "error")).
Proof. reflexivity. Qed.

(** A positional dependency whose generator function reports its value
    as unset before its first [yield] aborts the fulfillment, and the error
    carries the note it was raised with (none), not the note ["pending"]
    that was being resolved. *)
Lemma positional_unset_at_init_untagged :
  fst (Injector_fulfill Sample.registry Sample.mro 1 [VStr "pending"] [] Injector_init) =
  Raise (UnsetError VNone) /\
  UnsetError VNone <> UnsetError (VStr "pending").
Proof. split; [reflexivity | discriminate]. Qed.

(** C7 (Injector.fulfill, Injector.handle_provider), as the code has it.
    Positional notes are resolved in order and the first failure, an
    UnsetError included, ends the fulfillment with that very error, no later
    note being resolved. An UnsetError raised by the call of the provider's
    [get] (or of the factory) leaves [handle_provider] carrying the note
    under resolution; one raised earlier, while a generator provider is
    initialized or a provider class is constructed, passes as it was raised.
    A keyword note whose resolution raises UnsetError is skipped, its
    argument stays unbound and the fulfillment goes on to succeed. *)
Theorem fulfill_unset_dependencies :
  forall (R : registries) (mro : list cls) (fuel : nat),
    (forall pre n post kn st vs s1 e s2,
        resolve_each (resolve R mro fuel) pre st = (Ok vs, s1) ->
        resolve R mro fuel n s1 = (Raise e, s2) ->
        Injector_fulfill R mro fuel (pre ++ n :: post) kn st = (Raise e, s2)) /\
    (forall t note basenote name st bound s1 x s2,
        partial_if_annotated (resolve R mro fuel) (target_annotations t) st =
          (Ok bound, s1) ->
        call_target t basenote (fst bound) (snd bound)
          (if is_None name then None else Some name) s1 = (Raise (UnsetError x), s2) ->
        invoke (resolve R mro fuel) t note basenote name st =
          (Raise (UnsetError note), s2)) /\
    (forall g note basenote name st e s1,
        dict_get (instances st) basenote = None ->
        init_generator (resolve R mro fuel) basenote g st = (Raise e, s1) ->
        handle_provider (resolve R mro fuel) (DGenerator g) note basenote name st =
          (Raise e, s1)) /\
    (forall c note basenote name st e,
        dict_get (instances st) basenote = None ->
        new c [] [] = Raises e ->
        handle_provider (resolve R mro fuel) (DClass c) note basenote name st =
          (Raise e, record (Constructed basenote) st)) /\
    (forall ns kn1 arg note kn2 st args s0 kw1 s1 x s2 kw2 s3,
        resolve_each (resolve R mro fuel) ns st = (Ok args, s0) ->
        resolve_keywords (resolve R mro fuel) kn1 [] s0 = (Ok kw1, s1) ->
        resolve R mro fuel note s1 = (Raise (UnsetError x), s2) ->
        resolve_keywords (resolve R mro fuel) kn2 kw1 s2 = (Ok kw2, s3) ->
        Injector_fulfill R mro fuel ns (kn1 ++ (arg, note) :: kn2) st =
          (Ok (args, kw2), s3) /\
        (~ In arg (dict_keys kn1) -> ~ In arg (dict_keys kn2) ->
         dict_get kw2 arg = None)).
Proof.
  intros R mro fuel. split; [|split; [|split; [|split]]].
  - intros pre n post kn st vs s1 e s2 Hpre Hn.
    unfold Injector_fulfill, fulfill, bind at 1.
    now rewrite (resolve_each_fails _ pre n post st vs s1 e s2 Hpre Hn).
  - intros t note basenote name st bound s1 x s2 Hb Hc.
    unfold invoke, bind at 1. rewrite Hb. unfold tagging_unset.
    destruct (is_None name).
    + unfold bind at 1. now rewrite Hc.
    + now rewrite Hc.
  - intros g note basenote name st e s1 Hi Hg.
    unfold handle_provider, bind at 1, gets. rewrite Hi.
    unfold bind at 1. now rewrite Hg.
  - intros c note basenote name st e Hi Hc.
    unfold handle_provider, bind at 1, gets. rewrite Hi.
    unfold bind at 1, modify. unfold bind at 1. now rewrite Hc.
  - intros ns kn1 arg note kn2 st args s0 kw1 s1 x s2 kw2 s3 Hns Hk1 Hn Hk2. split.
    + unfold Injector_fulfill, fulfill, bind at 1. rewrite Hns.
      unfold bind at 1.
      rewrite (resolve_keywords_skips _ kn1 arg note kn2 [] s0 kw1 s1 x s2 Hk1 Hn).
      now rewrite Hk2.
    + intros N1 N2.
      apply (resolve_keywords_binds _ kn2 kw1 s2 kw2 s3 arg Hk2); [|exact N2].
      now apply (resolve_keywords_binds _ kn1 [] s0 kw1 s1 arg Hk1).
Qed.

Lemma fulfill_unset_dependencies_witness :
  Injector_fulfill Sample.registry Sample.mro 1
    [VStr "answer"; VStr "error"; VStr "first"] [] Injector_init =
  (Raise (UnsetError (VStr "error")),
   snd (resolve Sample.registry Sample.mro 1 (VStr "error")
          (snd (resolve Sample.registry Sample.mro 1 (VStr "answer") Injector_init)))) /\
  fst (Injector_fulfill Sample.registry Sample.mro 1
         [VStr "answer"] [("unused", VStr "error")] Injector_init) =
  Ok ([VInt 42], []).
Proof.
  destruct (fulfill_unset_dependencies Sample.registry Sample.mro 1)
    as (Hpos & _ & _ & _ & Hkw).
  split.
  - apply (Hpos [VStr "answer"] (VStr "error") [VStr "first"] [] Injector_init
             [VInt 42]
             (snd (resolve Sample.registry Sample.mro 1 (VStr "answer") Injector_init)));
      reflexivity.
  - edestruct (Hkw [VStr "answer"] [] "unused" (VStr "error") [] Injector_init)
      as [H _]; [vm_compute; reflexivity | vm_compute; reflexivity | vm_compute; reflexivity
                | vm_compute; reflexivity |].
    exact (f_equal fst H).
Defined.

(** ** Named resolutions and the cache of unnamed values *)

Lemma grows_refl st : grows st st.
Proof. intros k Hk. exact Hk. Qed.

Lemma grows_trans a b c : grows a b -> grows b c -> grows a c.
Proof. intros G1 G2 k Hk. apply G2, G1, Hk. Qed.

Lemma grows_set_instance k i st : grows st (set_instance k i st).
Proof.
  intros k' Hk'. cbn [set_instance instances]. rewrite dict_mem_set.
  destruct (eq_dec k k'); [reflexivity | exact Hk'].
Qed.

(** Resolution never drops a materialized provider. *)
Lemma grows_handle_provider rec d note basenote name :
  (forall n, respects grows (rec n)) ->
  respects grows (handle_provider rec d note basenote name).
Proof.
  intros Hrec. apply respects_handle_provider;
    [exact grows_refl | exact grows_trans | intros e s k Hk; exact Hk
    | exact grows_set_instance | intros k v s k' Hk; exact Hk | exact Hrec].
Qed.

Section Settles.
Variable R : registries.
Variable mro : list cls.
Variable o : option (value * value).

Lemma settles_refl st : settles R mro o st st.
Proof. split; [intros k Hk; exact Hk | auto]. Qed.

Lemma settles_trans a b c :
  settles R mro o a b -> settles R mro o b c -> settles R mro o a c.
Proof.
  intros [G1 S1] [G2 S2]. split; [|auto].
  intros k Hk. apply G2, G1, Hk.
Qed.

Lemma settles_record e st : settles R mro o st (record e st).
Proof. split; [intros k Hk; exact Hk | auto]. Qed.

Lemma settles_set_instance k i st : settles R mro o st (set_instance k i st).
Proof.
  assert (grows st (set_instance k i st)) as Hg.
  { intros k' Hk'. cbn [set_instance instances]. rewrite dict_mem_set.
    destruct (eq_dec k k'); [reflexivity | exact Hk']. }
  split; [exact Hg|]. intros [HG HC]. split; [|exact HC].
  intros k' g Hv Hl. apply Hg. exact (HG k' g Hv Hl).
Qed.

(** Caching a value for a base that is [cacheable], and is not the base
    whose cached value [settled] speaks of. *)
Lemma settles_set_value k v st :
  cacheable R mro st k ->
  (forall b v0, o = Some (b, v0) -> k <> b) ->
  settles R mro o st (set_value k v st).
Proof.
  intros Hc Hk. split; [intros k' Hk'; exact Hk'|].
  intros [HG HC]. split.
  - intros k' g Hv Hl. cbn [set_value values instances] in *.
    rewrite dict_mem_set in Hv. destruct (eq_dec k k') as [<-|N].
    + destruct Hc as [Hc|Hc]; [exact Hc|]. now destruct (Hc g).
    + exact (HG k' g Hv Hl).
  - intros b v0 Ho. cbn [set_value values].
    rewrite dict_get_set_other; [exact (HC b v0 Ho) | exact (Hk b v0 Ho)].
Qed.

Lemma cacheable_grows st st' k :
  grows st st' -> cacheable R mro st k -> cacheable R mro st' k.
Proof. intros Hg [Hc|Hc]; [left; apply Hg, Hc | right; exact Hc]. Qed.

Section Methods.
Variable self_resolve : value -> M value.
Hypothesis self_resolve_settles :
  forall note, respects (settles R mro o) (self_resolve note).

Lemma settles_partial a :
  respects (settles R mro o) (partial_if_annotated self_resolve a).
Proof.
  apply respects_partial;
    [exact settles_refl | exact settles_trans | exact self_resolve_settles].
Qed.

Lemma settles_call_target t basenote a kw name :
  respects (settles R mro o) (call_target t basenote a kw name).
Proof.
  apply respects_call_target;
    [exact settles_refl | exact settles_trans | exact settles_record
    | exact settles_set_instance].
Qed.

Lemma settles_init_generator basenote g :
  respects (settles R mro o) (init_generator self_resolve basenote g).
Proof.
  apply respects_init_generator;
    [exact settles_refl | exact settles_trans | exact settles_record
    | exact self_resolve_settles].
Qed.

Lemma settles_invoke t note basenote name st :
  cacheable R mro st basenote ->
  (forall b v, o = Some (b, v) -> is_None name = true -> basenote <> b) ->
  settles R mro o st (snd (invoke self_resolve t note basenote name st)).
Proof.
  intros Hc Hb. unfold invoke, bind at 1.
  pose proof (settles_partial (target_annotations t) st) as H1.
  destruct (partial_if_annotated self_resolve (target_annotations t) st)
    as [[bound| |] s1]; cbn [snd] in *; try exact H1.
  apply (settles_trans _ _ _ H1). unfold tagging_unset.
  destruct (is_None name) eqn:Hn.
  - unfold bind at 1.
    pose proof (settles_call_target t basenote (fst bound) (snd bound) None s1) as H2.
    destruct (call_target t basenote (fst bound) (snd bound) None s1)
      as [[v|e|] s2]; cbn [snd] in *.
    + unfold bind, modify, ret. cbn [snd].
      apply (settles_trans _ _ _ H2). apply settles_set_value.
      * apply (cacheable_grows s1); [exact (proj1 H2)|].
        apply (cacheable_grows st); [exact (proj1 H1) | exact Hc].
      * intros b v0 Ho. now apply (Hb b v0).
    + destruct e; exact H2.
    + exact H2.
  - pose proof (settles_call_target t basenote (fst bound) (snd bound)
                  (Some name) s1) as H2.
    destruct (call_target t basenote (fst bound) (snd bound) (Some name) s1)
      as [[v|e|] s2]; cbn [snd] in *; [exact H2 | destruct e; exact H2 | exact H2].
Qed.

Lemma settles_handle_provider d note basenote name st :
  lookup R mro basenote = Returns d ->
  (settled R mro o st ->
   forall b v, o = Some (b, v) -> is_None name = true -> basenote <> b) ->
  settles R mro o st (snd (handle_provider self_resolve d note basenote name st)).
Proof.
  intros Hl Hb. split.
  { apply grows_handle_provider. intros n s. apply self_resolve_settles. }
  intros Hs. specialize (Hb Hs).
  cut (settles R mro o st
         (snd (handle_provider self_resolve d note basenote name st)));
    [intros [_ H]; exact (H Hs)|].
  unfold handle_provider, bind at 1, gets.
  destruct (dict_get (instances st) basenote) as [i|] eqn:Hi.
  - apply settles_invoke; [|exact Hb]. left. unfold dict_mem. now rewrite Hi.
  - destruct d as [c|g|f].
    + unfold bind at 1, modify. unfold bind at 1.
      destruct (new c [] []) as [self|e]; cbn [lift ret raise snd];
        [|apply settles_record].
      unfold bind at 1.
      eapply settles_trans; [|apply settles_invoke; [|exact Hb]].
      * eapply settles_trans; [apply settles_record | apply settles_set_instance].
      * left. cbn [set_instance instances]. rewrite dict_mem_set.
        destruct (eq_dec basenote basenote); congruence.
    + unfold bind at 1.
      pose proof (settles_init_generator basenote g st) as H1.
      destruct (init_generator self_resolve basenote g st) as [[pv|e|] s1];
        cbn [snd] in *; try exact H1.
      unfold bind at 1, modify. unfold bind at 1.
      assert (settles R mro o st
                (set_value basenote (snd pv)
                   (set_instance basenote (GeneratorInstance (fst pv)) s1))) as H3.
      { apply (settles_trans _ _ _ H1).
        eapply settles_trans; [apply settles_set_instance|].
        apply settles_set_value.
        - left. cbn [set_instance instances]. rewrite dict_mem_set.
          destruct (eq_dec basenote basenote); congruence.
        - intros b v0 Ho Heq. subst b.
          destruct Hs as [HG HC].
          assert (dict_mem (instances st) basenote = true) as Hm.
          { apply (HG basenote g); [|exact Hl].
            unfold dict_mem. now rewrite (HC basenote v0 Ho). }
          unfold dict_mem in Hm. rewrite Hi in Hm. discriminate. }
      destruct (is_None name) eqn:Hn; [exact H3|].
      apply (settles_trans _ _ _ H3). apply settles_invoke;
        [|intros b v Ho Hn'; congruence].
      left. cbn [set_value set_instance instances]. rewrite dict_mem_set.
      destruct (eq_dec basenote basenote); congruence.
    + apply settles_invoke; [|exact Hb]. right. intros g. rewrite Hl. discriminate.
Qed.

Lemma settles_resolve_body note st :
  settles R mro o st (snd (resolve_body R mro self_resolve note st)).
Proof.
  unfold resolve_body, bind at 1.
  destruct (parse_note note) as [[basenote name]|e]; cbn [lift ret raise fst snd];
    [|apply settles_refl].
  unfold bind at 1, gets.
  destruct (if is_None name then dict_get (values st) basenote else None)
    as [v|] eqn:Hc; [apply settles_refl|].
  unfold bind at 1.
  destruct (lookup R mro basenote) as [d|e] eqn:Hl; cbn [lift ret raise];
    [|apply settles_refl].
  apply settles_handle_provider; [exact Hl|].
  intros [_ HC] b v Ho Hn Heq. subst b.
  rewrite Hn, (HC basenote v Ho) in Hc. discriminate.
Qed.
End Methods.

Lemma settles_resolve fuel note : respects (settles R mro o) (resolve R mro fuel note).
Proof.
  revert note. induction fuel as [|fuel IH]; intros note st.
  - apply settles_refl.
  - cbn [resolve]. apply settles_resolve_body. exact IH.
Qed.

Lemma settles_fulfill fuel ns kn :
  respects (settles R mro o) (Injector_fulfill R mro fuel ns kn).
Proof.
  apply respects_fulfill; [exact settles_refl | exact settles_trans|].
  intros note. apply settles_resolve.
Qed.
End Settles.

Lemma dict_mem_keys {V W} (d : dict value V) (d' : dict value W) k :
  dict_keys d = dict_keys d' -> dict_mem d k = dict_mem d' k.
Proof.
  unfold dict_mem, dict_keys. revert d'.
  induction d as [|[k0 v0] d IH]; intros [|[k1 v1] d']; simpl; try discriminate;
    [reflexivity|].
  intros [= -> Hk]. destruct (eq_dec k k1); [reflexivity | now apply IH].
Qed.

Lemma close_each_keys items :
  dict_keys (snd (fst (close_each items))) = dict_keys items.
Proof.
  induction items as [|[k i] items IH]; [reflexivity|].
  cbn [close_each]. destruct (instance_close i) as [[[]|e] i']; [|reflexivity].
  destruct (close_each items) as [[r its] evs]. cbn [fst snd] in *.
  unfold dict_keys in *. cbn [map fst]. f_equal. exact IH.
Qed.

(** [close] leaves [values] alone and keeps the keys of [instances]. *)
Lemma close_keeps st :
  values (snd (close st)) = values st /\
  dict_keys (instances (snd (close st))) = dict_keys (instances st).
Proof.
  unfold close. destruct (closed st); [split; reflexivity|].
  pose proof (close_each_keys (instances st)) as Hk.
  destruct (close_each (instances st)) as [[r its] evs]. cbn [fst snd] in Hk.
  destruct r as [[]|e|]; split; cbn; auto.
Qed.

Lemma settles_close R mro o st : settles R mro o st (snd (close st)).
Proof.
  destruct (close_keeps st) as [Hv Hk].
  assert (forall k, dict_mem (instances (snd (close st))) k = dict_mem (instances st) k)
    as Hm by (intros k; now apply dict_mem_keys).
  split.
  - intros k Hk'. now rewrite Hm.
  - intros [HG HC]. split.
    + intros k g Hvk Hl. rewrite Hm. rewrite Hv in Hvk. exact (HG k g Hvk Hl).
    + intros b v Ho. rewrite Hv. exact (HC b v Ho).
Qed.

(** In every injector reached from a new one under fixed registries, a
    cached value of a generator function comes with its provider. *)
Lemma reachable_generators_held R mro st :
  reachable R mro st -> generators_held R mro st.
Proof.
  induction 1 as [|st fuel note _ IH|st fuel ns kn _ IH|st _ IH].
  - intros k g Hv. discriminate.
  - apply (settles_resolve R mro None fuel note st). split; [exact IH | discriminate].
  - apply (settles_fulfill R mro None fuel ns kn st). split; [exact IH | discriminate].
  - apply (settles_close R mro None st). split; [exact IH | discriminate].
Qed.




Example named_greeting :
  fst (resolve Sample.registry Sample.mro 2 (VStr "greeting:Ann")
         (snd (Sample.resolve_in "greeting" Injector_init))) = Ok (VStr "Hello, Ann").
Proof. reflexivity. Qed.

(** ** Decorations *)

Lemma decorate_Returns c note fn mode D D' b n :
  decorate c note fn mode D = Returns D' ->
  parse_note note = Returns (b, n) ->
  D' = dict_set D c
         (dict_set (match dict_get D c with Some reg => reg | None => [] end) (b, n)
            (own_decorations D c b n ++ [(mode, fn)])).
Proof.
  unfold decorate. intros Hd Hp. rewrite Hp in Hd.
  destruct (negb (String.eqb mode DECORATE || String.eqb mode CONFIGURE));
    [discriminate|].
  destruct (String.eqb mode CONFIGURE && negb (is_None n)); [discriminate|].
  now injection Hd as <-.
Qed.

(** A registration is appended to the list of its class and key. *)
Lemma decorate_own_same c note fn mode D D' b n :
  decorate c note fn mode D = Returns D' ->
  parse_note note = Returns (b, n) ->
  own_decorations D' c b n = own_decorations D c b n ++ [(mode, fn)].
Proof.
  intros Hd Hp. rewrite (decorate_Returns c note fn mode D D' b n Hd Hp).
  unfold own_decorations at 1. now rewrite !dict_get_set_same.
Qed.

(** A registration does not reach the lists of other classes. *)
Lemma decorate_own_other c note fn mode D D' c' b n :
  decorate c note fn mode D = Returns D' ->
  c <> c' ->
  own_decorations D' c' b n = own_decorations D c' b n.
Proof.
  unfold decorate. intros Hd Hc.
  destruct (negb (String.eqb mode DECORATE || String.eqb mode CONFIGURE));
    [discriminate|].
  destruct (parse_note note) as [[b0 n0]|e]; [|discriminate].
  destruct (String.eqb mode CONFIGURE && negb (is_None n0)); [discriminate|].
  injection Hd as <-. unfold own_decorations. now rewrite dict_get_set_other.
Qed.

Lemma flat_map_nil {A B} (f : A -> list B) l :
  (forall a, In a l -> f a = []) -> flat_map f l = [].
Proof.
  induction l as [|a l IH]; intros H; [reflexivity|]. simpl.
  rewrite (H a) by now left. apply IH. intros a' Ha'. apply H. now right.
Qed.

(** *** Methods that the injector does not have *)

Lemma self_call_unbound {A} mro name (call : M A) st :
  has_attribute name = false ->
  self_call mro name call st = (Raise (no_attribute mro name), st).
Proof. intros H. unfold self_call. now rewrite H. Qed.

(** With one entry to go through, the loop ends at the lookup of
    [self.has_annotations]. *)
Lemma apply_decorations_raises rec mro steps v st :
  steps <> [] ->
  apply_decorations rec mro steps v st =
  (Raise (no_attribute mro "has_annotations"), st).
Proof.
  destruct steps as [|[mode fn] rest]; [congruence|]. intros _.
  cbn [apply_decorations]. unfold bind.
  now rewrite self_call_unbound by reflexivity.
Qed.

Lemma flat_map_not_nil {A B} (f : A -> list B) l a :
  In a l -> f a <> [] -> flat_map f l <> [].
Proof.
  induction l as [|x l IH]; intros Hin Hf; [destruct Hin|]. simpl.
  destruct Hin as [-> | Hin].
  - destruct (f a); [congruence | discriminate].
  - intros Happ. apply app_eq_nil in Happ as [_ Hl]. now apply IH.
Qed.

(** C5 (DecoratingInjector.decorators_iter, decorators_apply). With [d1]
    then [d2] registered on an ancestor [A] and [d3] on a subtype [S], the
    walk over the registries reaches the entries of the key as [d1], [d2],
    [d3]: classes from the root to the most derived one, registration order
    within a class. No step is applied, though: for the first entry it
    reaches, the generator calls [self.has_annotations], which no class of
    the injector binds, and [decorators_apply] ends with that
    AttributeError, no step called and the injector as it was. *)
Theorem decorators_apply_raises_before_first_step :
  forall (D0 D1 D2 D3 : decorators) (A S : cls) (mid up : list cls)
         (note b n : value) (d1 d2 d3 : callable) (m1 m2 m3 : string),
    parse_note note = Returns (b, n) ->
    NoDup (S :: mid ++ A :: up) ->
    (forall c, In c (S :: mid ++ A :: up) -> own_decorations D0 c b n = []) ->
    decorate A note d1 m1 D0 = Returns D1 ->
    decorate A note d2 m2 D1 = Returns D2 ->
    decorate S note d3 m3 D2 = Returns D3 ->
    decorators_iter D3 (S :: mid ++ A :: up) b n = [(m1, d1); (m2, d2); (m3, d3)] /\
    forall (rec : value -> M value) (v : value) (st : Injector),
      decorators_apply rec (S :: mid ++ A :: up) D3 b n v st =
      (Raise (no_attribute (S :: mid ++ A :: up) "has_annotations"), st).
Proof.
  intros D0 D1 D2 D3 A S mid up note b n d1 d2 d3 m1 m2 m3 Hp Hnd H0 H1 H2 H3.
  assert (decorators_iter D3 (S :: mid ++ A :: up) b n =
          [(m1, d1); (m2, d2); (m3, d3)]) as Hwalk.
  { assert (S <> A) as HSA.
    { inversion Hnd as [|? ? HS _]. intros ->. apply HS. apply in_or_app.
      right. now left. }
    assert (forall c, In c (mid ++ up) -> c <> A /\ c <> S) as Hother.
    { intros c Hc. inversion Hnd as [|? ? HS Hnd']. subst. split.
      - intros ->. apply in_app_or in Hc as [Hc|Hc].
        + apply NoDup_remove_2 in Hnd'. apply Hnd'. apply in_or_app. now left.
        + apply NoDup_remove_2 in Hnd'. apply Hnd'. apply in_or_app. now right.
      - intros ->. apply HS. apply in_app_or in Hc as [Hc|Hc]; apply in_or_app;
          [now left | right; now right]. }
    assert (own_decorations D3 S b n = [(m3, d3)]) as HS3.
    { rewrite (decorate_own_same S note d3 m3 D2 D3 b n H3 Hp).
      rewrite (decorate_own_other A note d2 m2 D1 D2 S b n H2) by congruence.
      rewrite (decorate_own_other A note d1 m1 D0 D1 S b n H1) by congruence.
      rewrite H0 by now left. reflexivity. }
    assert (own_decorations D3 A b n = [(m1, d1); (m2, d2)]) as HA3.
    { rewrite (decorate_own_other S note d3 m3 D2 D3 A b n H3) by congruence.
      rewrite (decorate_own_same A note d2 m2 D1 D2 b n H2 Hp).
      rewrite (decorate_own_same A note d1 m1 D0 D1 b n H1 Hp).
      rewrite H0; [reflexivity|]. right. apply in_or_app. right. now left. }
    assert (forall c, In c (mid ++ up) -> own_decorations D3 c b n = []) as Hc3.
    { intros c Hc. destruct (Hother c Hc) as [NA NS].
      rewrite (decorate_own_other S note d3 m3 D2 D3 c b n H3) by congruence.
      rewrite (decorate_own_other A note d2 m2 D1 D2 c b n H2) by congruence.
      rewrite (decorate_own_other A note d1 m1 D0 D1 c b n H1) by congruence.
      apply H0. right. apply in_app_or in Hc as [Hc|Hc]; apply in_or_app;
        [now left | right; now right]. }
    unfold decorators_iter. cbn [rev]. rewrite rev_app_distr. cbn [rev].
    rewrite !flat_map_app. cbn [flat_map]. rewrite HS3, HA3, !app_nil_r.
    rewrite (flat_map_nil _ (rev up)), (flat_map_nil _ (rev mid)); [reflexivity| |].
    - intros c Hc. apply Hc3. apply in_or_app. left. now apply in_rev.
    - intros c Hc. apply Hc3. apply in_or_app. right. now apply in_rev. }
  split; [exact Hwalk|].
  intros rec v st. unfold decorators_apply. rewrite Hwalk.
  now apply apply_decorations_raises.
Qed.

Lemma decorators_apply_raises_before_first_step_witness :
  decorators_apply (resolve [] SampleDecorations.sub_mro 1) SampleDecorations.sub_mro
    (SampleDecorations.out
       (decorate "SubTestInjector" (VStr "it") SampleDecorations.double_it DECORATE
          (SampleDecorations.out
             (configure "TestInjector" (VStr "it") SampleDecorations.ignore_it
                (SampleDecorations.out
                   (decorate "TestInjector" (VStr "it") SampleDecorations.reverse_it
                      DECORATE []))))))
    (VStr "it") VNone (VStr "abc") Injector_init =
  (Raise (AttributeError "'SubTestInjector' object has no attribute 'has_annotations'"),
   Injector_init).
Proof.
  apply (decorators_apply_raises_before_first_step []
           (SampleDecorations.out
              (decorate "TestInjector" (VStr "it") SampleDecorations.reverse_it
                 DECORATE []))
           (SampleDecorations.out
              (configure "TestInjector" (VStr "it") SampleDecorations.ignore_it
                 (SampleDecorations.out
                    (decorate "TestInjector" (VStr "it") SampleDecorations.reverse_it
                       DECORATE []))))
           _ "TestInjector" "SubTestInjector" []
           ["DecoratingInjector"; "Injector"; "object"] (VStr "it")
           (VStr "it") VNone
           SampleDecorations.reverse_it SampleDecorations.ignore_it
           SampleDecorations.double_it DECORATE CONFIGURE DECORATE).
  - reflexivity.
  - repeat constructor; simpl; intuition discriminate.
  - reflexivity.
  - reflexivity.
  - reflexivity.
  - reflexivity.
Defined.

(** [test_simple_decorate] on this module: with [reverse_it] registered for
    ["it"], applying the decorations of ["it"] to "abc" raises where the
    test expects "cba". *)
Example simple_decorate :
  decorators_apply (resolve [] (tl SampleDecorations.sub_mro) 1)
    (tl SampleDecorations.sub_mro)
    (SampleDecorations.out
       (decorate "TestInjector" (VStr "it") SampleDecorations.reverse_it DECORATE []))
    (VStr "it") VNone (VStr "abc") Injector_init =
  (Raise (AttributeError "'TestInjector' object has no attribute 'has_annotations'"),
   Injector_init).
Proof. reflexivity. Qed.

(** [test_configure_named_unsupported] *)
Example configure_named_unsupported :
  configure "TestInjector" (VStr "genie:foo") SampleDecorations.ignore_it [] =
  Raises (ValueError "Decorating named notes in configure mode not supported").
Proof. reflexivity. Qed.

(** * Further properties *)

(** ** Note parsing *)

Section ParseMore.
Local Open Scope string_scope.

Lemma dot_star_end_line_break r :
  dot_star_end r = None <-> line_break_inside r = true.
Proof.
  induction r as [|c r IH]; [simpl; split; discriminate|].
  cbn [dot_star_end line_break_inside].
  destruct (is_newline c) eqn:Hc.
  - destruct r; simpl; [rewrite Hc|]; split; try discriminate; reflexivity.
  - destruct r as [|c' r'].
    + simpl. split; discriminate.
    + rewrite orb_false_l, <- IH.
      destruct (dot_star_end (String c' r')); [split; discriminate|].
      simpl. split; reflexivity.
Qed.

Lemma lazy_base_line_break taken s :
  lazy_base taken s = None <-> line_break_inside s = true.
Proof.
  revert taken. induction s as [|c s IH]; intros taken; [simpl; split; discriminate|].
  cbn [lazy_base]. unfold opt_name_end.
  destruct (is_newline c) eqn:Hc.
  - assert (Ascii.eqb c colon = false) as ->.
    { unfold is_newline in Hc. apply Ascii.eqb_eq in Hc. subst c. reflexivity. }
    destruct s; simpl; rewrite ?Hc; split; try discriminate; reflexivity.
  - rewrite (at_end_cons_false c s Hc).
    assert (line_break_inside (String c s) = line_break_inside s) as Hl.
    { destruct s; [reflexivity|]. cbn [line_break_inside]. now rewrite Hc. }
    rewrite Hl. destruct (Ascii.eqb c colon).
    + destruct (dot_star_end s) as [g|] eqn:Hd.
      * split; [discriminate|]. intros Hb.
        apply dot_star_end_line_break in Hb. congruence.
      * rewrite (lazy_base_None _ _ Hd).
        split; [|reflexivity]. intros _. now apply dot_star_end_line_break.
    + apply IH.
Qed.

Lemma dot_star_end_trailing r :
  contains newline r = false -> dot_star_end (r ++ nl) = Some r.
Proof.
  induction r as [|c r IH]; [reflexivity|].
  simpl. intros Hc. apply orb_false_iff in Hc as [Hc Hr].
  unfold is_newline. rewrite Hc. fold (r ++ nl). now rewrite (IH Hr).
Qed.

Lemma lazy_base_trailing taken s :
  contains newline s = false -> lazy_base taken (s ++ nl) = lazy_base taken s.
Proof.
  revert taken. induction s as [|c s IH]; intros taken Hs; [reflexivity|].
  simpl in Hs. apply orb_false_iff in Hs as [Hc Hs].
  change (String c s ++ nl) with (String c (s ++ nl)).
  cbn [lazy_base]. unfold opt_name_end.
  rewrite !(at_end_cons_false c _ Hc). unfold is_newline. rewrite Hc.
  rewrite (dot_star_end_trailing s Hs), (dot_star_end_no_newline s Hs).
  destruct (Ascii.eqb c colon); [reflexivity|]. now apply IH.
Qed.

Lemma lazy_base_split taken s :
  contains newline s = false ->
  lazy_base taken s =
  Some (string_of_list_ascii (rev taken) ++ fst (split_first_colon s),
        snd (split_first_colon s)).
Proof.
  revert taken. induction s as [|c s IH]; intros taken Hs.
  - simpl. now rewrite append_nil_r.
  - simpl in Hs. apply orb_false_iff in Hs as [Hc Hs].
    cbn [lazy_base split_first_colon]. unfold opt_name_end.
    rewrite (at_end_cons_false c _ Hc). unfold is_newline at 1. rewrite Hc.
    rewrite (dot_star_end_no_newline s Hs).
    destruct (Ascii.eqb c colon).
    + cbn [fst snd]. now rewrite append_nil_r.
    + rewrite (IH _ Hs). destruct (split_first_colon s) as [b n]. cbn [fst snd].
      now rewrite string_of_rev_cons, append_assoc.
Qed.

End ParseMore.

(** X1 (Injector.parse_note). A string note without line breaks always
    parses, and is cut at its first colon: the base is what is before it,
    the name what is after it (the empty string when the colon is last), and
    the name is None when there is no colon. *)
Theorem parse_note_cuts_at_first_colon :
  forall s : string,
    contains newline s = false ->
    parse_note (VStr s) =
    Returns (VStr (fst (split_first_colon s)), opt_str (snd (split_first_colon s))).
Proof.
  intros s Hs. unfold parse_note, re_note_match.
  now rewrite (lazy_base_split [] s Hs).
Qed.

Lemma parse_note_cuts_at_first_colon_witness :
  parse_note (VStr "a:b:c") = Returns (VStr "a", VStr "b:c").
Proof.
  apply (parse_note_cuts_at_first_colon "a:b:c"). reflexivity.
Defined.

(** X2 (Injector.parse_note). A string note is refused, with the
    AttributeError of a failed match, exactly when it has a line break
    before its last character; every other string parses. *)
Theorem parse_note_refuses_inner_line_breaks :
  forall s : string,
    (line_break_inside s = true ->
     parse_note (VStr s) =
     Raises (AttributeError "'NoneType' object has no attribute 'groups'")) /\
    (line_break_inside s = false ->
     exists b n, parse_note (VStr s) = Returns (VStr b, n)).
Proof.
  intros s. unfold parse_note, re_note_match. split; intros Hl.
  - apply lazy_base_line_break with (taken := []) in Hl. now rewrite Hl.
  - destruct (lazy_base [] s) as [[g1 g2]|] eqn:Hb.
    + now exists g1, (opt_str g2).
    + apply lazy_base_line_break in Hb. congruence.
Qed.

Lemma parse_note_refuses_inner_line_breaks_witness :
  exists b n, parse_note (VStr ("a:b" ++ nl)) = Returns (VStr b, n).
Proof.
  apply (parse_note_refuses_inner_line_breaks ("a:b" ++ nl)). reflexivity.
Defined.

(** X3 (Injector.parse_note). One line break at the very end of a string
    note is dropped: the note parses to the same base and name as the
    string without it, so that both are the same key for registration and
    resolution. *)
Theorem parse_note_drops_final_line_break :
  forall s : string,
    contains newline s = false ->
    parse_note (VStr (s ++ nl)) = parse_note (VStr s).
Proof.
  intros s Hs. unfold parse_note, re_note_match.
  now rewrite (lazy_base_trailing [] s Hs).
Qed.

Lemma parse_note_drops_final_line_break_witness :
  parse_note (VStr ("answer" ++ nl)) = Returns (VStr "answer", VNone).
Proof.
  rewrite (parse_note_drops_final_line_break "answer"); reflexivity.
Defined.

(** ** Registration *)

(** X4 (Injector.register). Registering a base again on the same class
    replaces the earlier provider and nothing else: the registries are
    those of the second registration alone, and a lookup from that class
    finds the second provider. *)
Theorem register_last_write_wins :
  forall (c : cls) (n1 n2 b name1 name2 : value) (p1 p2 : descriptor)
         (R R1 : registries),
    parse_note n1 = Returns (b, name1) ->
    parse_note n2 = Returns (b, name2) ->
    register c n1 p1 R = Returns R1 ->
    register c n2 p2 R1 = register c n2 p2 R /\
    exists R2, register c n2 p2 R1 = Returns R2 /\
               forall up, lookup R2 (c :: up) b = Returns p2.
Proof.
  intros c n1 n2 b name1 name2 p1 p2 R R1 H1 H2 Hr.
  rewrite (register_parsed c n1 b name1 p1 R H1) in Hr. injection Hr as <-.
  rewrite (register_parsed c n2 b name2 p2 _ H2), (register_parsed c n2 b name2 p2 R H2).
  rewrite dict_get_set_same, !dict_set_idem.
  split; [reflexivity|]. eexists. split; [reflexivity|].
  intros up. apply lookup_here. eexists.
  split; [apply dict_get_set_same|]. apply dict_get_set_same.
Qed.

Lemma register_last_write_wins_witness :
  register "Injector" (VStr "answer") (DCallable (Sample.constant "two" (VInt 2)))
    [("Injector", [(VStr "answer", DCallable (Sample.constant "one" (VInt 1)))])] =
  register "Injector" (VStr "answer") (DCallable (Sample.constant "two" (VInt 2))) [].
Proof.
  apply (register_last_write_wins "Injector" (VStr "answer:x") (VStr "answer")
           (VStr "answer") (VStr "x") VNone
           (DCallable (Sample.constant "one" (VInt 1)))
           (DCallable (Sample.constant "two" (VInt 2))) []); reflexivity.
Defined.

(** X5 (Injector.register, Injector.lookup). A registration changes the
    lookup of its own base only: for every other base, and from every
    class, lookup finds what it found before. *)
Theorem register_keeps_other_bases :
  forall (c : cls) (note b name b' : value) (p : descriptor) (R R' : registries)
         (mro : list cls),
    parse_note note = Returns (b, name) ->
    register c note p R = Returns R' ->
    b <> b' ->
    lookup R' mro b' = lookup R mro b'.
Proof.
  intros c note b name b' p R R' mro Hp Hr Hb.
  rewrite (register_parsed c note b name p R Hp) in Hr. injection Hr as <-.
  induction mro as [|c' up IH]; [reflexivity|]. cbn [lookup]. rewrite IH.
  destruct (eq_dec c c') as [<-|Hc].
  - rewrite dict_get_set_same, dict_get_set_other by exact Hb.
    destruct (dict_get R c) as [reg|]; reflexivity.
  - now rewrite dict_get_set_other.
Qed.

Lemma register_keeps_other_bases_witness :
  lookup [("Injector", [(VStr "answer", DCallable (Sample.constant "one" (VInt 1)));
                        (VStr "other", DCallable (Sample.constant "two" (VInt 2)))])]
    ["Injector"; "object"] (VStr "answer") =
  Returns (DCallable (Sample.constant "one" (VInt 1))).
Proof.
  rewrite (register_keeps_other_bases "Injector" (VStr "other") (VStr "other") VNone
             (VStr "answer") (DCallable (Sample.constant "two" (VInt 2)))
             [("Injector", [(VStr "answer", DCallable (Sample.constant "one" (VInt 1)))])]);
    [reflexivity | reflexivity | reflexivity | discriminate].
Defined.

(** ** Resolution *)

(** X6 (Injector.resolve). A resolution that cannot start fails and leaves
    the injector as it was: a note that does not parse raises the error of
    the parser, and a note whose base no class of the hierarchy has
    registered raises a LookupError that carries the whole note, name
    included. *)
Theorem resolve_fails_cleanly :
  forall (R : registries) (mro : list cls) (fuel : nat) (note : value) (st : Injector),
    (forall e, parse_note note = Raises e ->
               resolve R mro (S fuel) note st = (Raise e, st)) /\
    (forall b name,
        parse_note note = Returns (b, name) ->
        is_None name = false \/ dict_get (values st) b = None ->
        Forall (fun c => unregistered R c b) mro ->
        resolve R mro (S fuel) note st = (Raise (LookupError note), st)).
Proof.
  intros R mro fuel note st. split.
  - intros e Hp. cbn [resolve]. unfold resolve_body, bind at 1. now rewrite Hp.
  - intros b name Hp Hc Hu. cbn [resolve]. unfold resolve_body, bind at 1.
    rewrite Hp. cbn [lift ret fst snd]. unfold bind at 1, gets.
    rewrite (lookup_none R mro b Hu).
    destruct Hc as [Hn|Hv]; [rewrite Hn | rewrite Hv; destruct (is_None name)];
      reflexivity.
Qed.

Lemma resolve_fails_cleanly_witness :
  resolve Sample.registry Sample.mro 1 (VStr "missing:name") Injector_init =
  (Raise (LookupError (VStr "missing:name")), Injector_init).
Proof.
  apply (resolve_fails_cleanly Sample.registry Sample.mro 0 (VStr "missing:name")
           Injector_init) with (b := VStr "missing") (name := VStr "name").
  - reflexivity.
  - left. reflexivity.
  - repeat constructor; intros reg [= <-]; reflexivity.
Defined.

(** ** Providers are materialized once *)

Section KeepsProvider.
Variable k : value.

Lemma keeps_provider_refl st : keeps_provider k st st.
Proof.
  intros Hk. split; [exact Hk|]. exists []. split; [now rewrite app_nil_r|].
  intros e [].
Qed.

Lemma keeps_provider_trans a b c :
  keeps_provider k a b -> keeps_provider k b c -> keeps_provider k a c.
Proof.
  intros H1 H2 Hk. destruct (H1 Hk) as (Hb & n1 & E1 & F1).
  destruct (H2 Hb) as (Hc & n2 & E2 & F2). split; [exact Hc|].
  exists (n1 ++ n2). split; [now rewrite E2, E1, app_assoc|].
  intros e He. apply in_app_or in He as [He|He]; auto.
Qed.

Lemma keeps_provider_record e st :
  ~ materializing k e -> keeps_provider k st (record e st).
Proof.
  intros He Hk. split; [exact Hk|]. exists [e]. split; [reflexivity|].
  intros e' [<-|[]]. exact He.
Qed.

Lemma keeps_provider_set_instance b i st :
  keeps_provider k st (set_instance b i st).
Proof.
  intros Hk. split.
  - cbn [set_instance instances]. rewrite dict_mem_set.
    destruct (eq_dec b k); [reflexivity | exact Hk].
  - exists []. split; [cbn; now rewrite app_nil_r|]. intros e [].
Qed.

Lemma keeps_provider_set_value b v st : keeps_provider k st (set_value b v st).
Proof.
  intros Hk. split; [exact Hk|]. exists []. split; [cbn; now rewrite app_nil_r|].
  intros e [].
Qed.

Lemma keeps_provider_lift {A} (o : outcome A) st :
  keeps_provider k st (snd (lift o st)).
Proof. destruct o; apply keeps_provider_refl. Qed.

Lemma keeps_provider_call_target t basenote a kw name st :
  keeps_provider k st (snd (call_target t basenote a kw name st)).
Proof.
  assert (~ materializing k (Got basenote a kw name)) as Hg.
  { intros [H|(a' & kw' & H)]; discriminate. }
  unfold call_target. destruct t as [held|f].
  - destruct (instance_get _ a kw name) as [r i'].
    eapply keeps_provider_trans; [apply (keeps_provider_record _ st Hg)|].
    eapply keeps_provider_trans; [apply keeps_provider_set_instance|].
    apply keeps_provider_lift.
  - eapply keeps_provider_trans; [apply (keeps_provider_record _ st Hg)|].
    apply keeps_provider_lift.
Qed.

Section Methods.
Variable self_resolve : value -> M value.
Hypothesis self_resolve_keeps :
  forall note, respects (keeps_provider k) (self_resolve note).

Lemma keeps_provider_partial a st :
  keeps_provider k st (snd (partial_if_annotated self_resolve a st)).
Proof.
  apply (respects_partial (keeps_provider k) keeps_provider_refl keeps_provider_trans
           self_resolve self_resolve_keeps).
Qed.

Lemma keeps_provider_invoke t note basenote name st :
  keeps_provider k st (snd (invoke self_resolve t note basenote name st)).
Proof.
  unfold invoke, bind at 1.
  pose proof (keeps_provider_partial (target_annotations t) st) as H1.
  destruct (partial_if_annotated self_resolve (target_annotations t) st)
    as [[bound| |] s1]; cbn [snd] in *; try exact H1.
  apply (keeps_provider_trans _ _ _ H1). unfold tagging_unset.
  destruct (is_None name).
  - unfold bind at 1.
    pose proof (keeps_provider_call_target t basenote (fst bound) (snd bound) None s1)
      as H2.
    destruct (call_target t basenote (fst bound) (snd bound) None s1)
      as [[v|e|] s2]; cbn [snd] in *; [|destruct e; exact H2 | exact H2].
    unfold bind, modify, ret. cbn [snd].
    apply (keeps_provider_trans _ _ _ H2). apply keeps_provider_set_value.
  - pose proof (keeps_provider_call_target t basenote (fst bound) (snd bound)
                  (Some name) s1) as H2.
    destruct (call_target t basenote (fst bound) (snd bound) (Some name) s1)
      as [[v|e|] s2]; cbn [snd] in *; [exact H2 | destruct e; exact H2 | exact H2].
Qed.

Lemma keeps_provider_init_generator basenote g st :
  basenote <> k ->
  keeps_provider k st (snd (init_generator self_resolve basenote g st)).
Proof.
  intros Hb. unfold init_generator, bind at 1.
  pose proof (keeps_provider_partial (gen_annotations g) st) as H1.
  destruct (partial_if_annotated self_resolve (gen_annotations g) st)
    as [[bound| |] s1]; cbn [snd] in *; try exact H1.
  apply (keeps_provider_trans _ _ _ H1). unfold bind, modify.
  eapply keeps_provider_trans; [|apply keeps_provider_lift].
  apply keeps_provider_record. intros [H|(a & kw & H)]; congruence.
Qed.

Lemma keeps_provider_handle_provider d note basenote name st :
  keeps_provider k st (snd (handle_provider self_resolve d note basenote name st)).
Proof.
  unfold handle_provider, bind at 1, gets.
  destruct (dict_get (instances st) basenote) as [i|] eqn:Hi;
    [apply keeps_provider_invoke|].
  intros Hk.
  assert (basenote <> k) as Hb.
  { intros ->. unfold dict_mem in Hk. rewrite Hi in Hk. discriminate. }
  revert Hk. change (keeps_provider k st
    (snd (match d with
          | DClass c =>
              modify (record (Constructed basenote));;;
              self <- lift (new c [] []);;
              modify (set_instance basenote (ClassInstance c self));;;
              invoke self_resolve (Held (ClassInstance c self)) note basenote name
          | DGenerator g =>
              pv <- init_generator self_resolve basenote g;;
              modify (set_instance basenote (GeneratorInstance (fst pv)));;;
              modify (set_value basenote (snd pv));;;
              (if is_None name then ret (snd pv)
               else invoke self_resolve (Held (GeneratorInstance (fst pv)))
                      note basenote name)
          | DCallable f => invoke self_resolve (Plain f) note basenote name
          end st))).
  destruct d as [c|g|f].
  - unfold bind at 1, modify. unfold bind at 1.
    assert (keeps_provider k st (record (Constructed basenote) st)) as H0.
    { apply keeps_provider_record. intros [H|(a & kw & H)]; congruence. }
    destruct (new c [] []) as [self|e]; cbn [lift ret raise snd]; [|exact H0].
    unfold bind at 1.
    apply (keeps_provider_trans _ _ _ H0).
    eapply keeps_provider_trans; [apply keeps_provider_set_instance|].
    apply keeps_provider_invoke.
  - unfold bind at 1.
    pose proof (keeps_provider_init_generator basenote g st Hb) as H1.
    destruct (init_generator self_resolve basenote g st) as [[pv|e|] s1];
      cbn [snd] in *; try exact H1.
    unfold bind at 1, modify. unfold bind at 1.
    apply (keeps_provider_trans _ _ _ H1).
    eapply keeps_provider_trans; [apply keeps_provider_set_instance|].
    eapply keeps_provider_trans; [apply keeps_provider_set_value|].
    destruct (is_None name); [apply keeps_provider_refl | apply keeps_provider_invoke].
  - apply keeps_provider_invoke.
Qed.

Lemma keeps_provider_resolve_body R mro note st :
  keeps_provider k st (snd (resolve_body R mro self_resolve note st)).
Proof.
  unfold resolve_body, bind at 1.
  destruct (parse_note note) as [[basenote name]|e]; cbn [lift ret raise fst snd];
    [|apply keeps_provider_refl].
  unfold bind at 1, gets.
  destruct (if is_None name then dict_get (values st) basenote else None);
    [apply keeps_provider_refl|].
  unfold bind at 1.
  destruct (lookup R mro basenote) as [d|e]; cbn [lift ret raise];
    [|apply keeps_provider_refl].
  apply keeps_provider_handle_provider.
Qed.
End Methods.

Lemma keeps_provider_resolve R mro fuel note :
  respects (keeps_provider k) (resolve R mro fuel note).
Proof.
  revert note. induction fuel as [|fuel IH]; intros note st.
  - apply keeps_provider_refl.
  - cbn [resolve]. apply keeps_provider_resolve_body. exact IH.
Qed.
End KeepsProvider.

(** X7 (Injector.handle_provider, Injector.resolve). A provider is
    materialized once per injector: while a provider is held for a base, no
    resolution, of whatever note and however deep its dependencies go,
    constructs a provider class or initializes a generator for that base
    again, and the base stays held. *)
Theorem provider_materialized_once :
  forall (R : registries) (mro : list cls) (fuel : nat) (note k : value)
         (st : Injector),
    dict_mem (instances st) k = true ->
    dict_mem (instances (snd (resolve R mro fuel note st))) k = true /\
    exists new,
      calls (snd (resolve R mro fuel note st)) = calls st ++ new /\
      forall e, In e new -> ~ materializing k e.
Proof.
  intros R mro fuel note k st Hk.
  exact (keeps_provider_resolve k R mro fuel note st Hk).
Qed.

Lemma provider_materialized_once_witness :
  exists new,
    calls (snd (Sample.resolve_in "first:again"
                  (snd (Sample.resolve_in "first" Injector_init)))) =
    calls (snd (Sample.resolve_in "first" Injector_init)) ++ new /\
    forall e, In e new -> ~ materializing (VStr "first") e.
Proof.
  apply (provider_materialized_once Sample.registry Sample.mro 5 (VStr "first:again")
           (VStr "first") (snd (Sample.resolve_in "first" Injector_init))).
  reflexivity.
Defined.

(** ** Fulfilling annotations *)

Lemma dict_mem_In {K V} `{EqDec K} (d : dict K V) k :
  dict_mem d k = true <-> In k (dict_keys d).
Proof.
  unfold dict_mem, dict_keys. induction d as [|[k0 v0] d IH]; simpl.
  - split; [discriminate | intros []].
  - destruct (eq_dec k k0) as [->|N].
    + split; auto.
    + rewrite IH. split; [auto | intros [E|Hin]; [congruence | exact Hin]].
Qed.

Lemma dict_set_NoDup {K V} `{EqDec K} (d : dict K V) a v :
  NoDup (dict_keys d) -> NoDup (dict_keys (dict_set d a v)).
Proof.
  intros Hd. rewrite dict_keys_set. destruct (dict_mem d a) eqn:Hm; [exact Hd|].
  apply NoDup_app; [exact Hd | repeat constructor; intros [] |].
  intros x Hx [<-|[]]. apply dict_mem_In in Hx. congruence.
Qed.

Lemma resolve_each_length rec ns st vs st' :
  resolve_each rec ns st = (Ok vs, st') -> List.length vs = List.length ns.
Proof.
  revert st vs st'. induction ns as [|n ns IH]; intros st vs st'.
  - cbn [resolve_each]. unfold ret. now intros [= <- _].
  - cbn [resolve_each]. unfold bind.
    destruct (rec n st) as [[v| |] s1]; try discriminate.
    destruct (resolve_each rec ns s1) as [[vs0| |] s2] eqn:Hr; try discriminate.
    unfold ret. intros [= <- _]. cbn [List.length]. f_equal. exact (IH _ _ _ Hr).
Qed.

Lemma resolve_keywords_keys rec kn kwargs st kw st' :
  resolve_keywords rec kn kwargs st = (Ok kw, st') ->
  NoDup (dict_keys kwargs) ->
  NoDup (dict_keys kw) /\
  forall a, In a (dict_keys kw) -> In a (dict_keys kwargs) \/ In a (dict_keys kn).
Proof.
  revert kwargs st st'. induction kn as [|[arg n] kn IH]; intros kwargs st st'.
  - cbn [resolve_keywords]. unfold ret. intros [= <- _] Hd. auto.
  - cbn [resolve_keywords]. intros Hr Hd.
    destruct (rec n st) as [[v|e|] s1]; try discriminate.
    + destruct (IH _ _ _ Hr (dict_set_NoDup kwargs arg v Hd)) as [Hn Hin].
      split; [exact Hn|]. intros a Ha. destruct (Hin a Ha) as [H1|H1].
      * rewrite dict_keys_set in H1. destruct (dict_mem kwargs arg).
        -- now left.
        -- apply in_app_or in H1 as [H1|[<-|[]]]; [now left|]. right. now left.
      * right. now right.
    + destruct e; try discriminate.
      destruct (IH _ _ _ Hr Hd) as [Hn Hin]. split; [exact Hn|].
      intros a Ha. destruct (Hin a Ha); [now left | right; now right].
Qed.

(** X8 (Injector.fulfill). A fulfillment that succeeds returns one
    argument for every positional note, and keyword arguments that are each
    bound once and only under the parameter names of the keyword notes. *)
Theorem fulfill_shape :
  forall (R : registries) (mro : list cls) (fuel : nat) (ns : list value)
         (kn : dict string value) (st st' : Injector)
         (args : list value) (kwargs : dict string value),
    Injector_fulfill R mro fuel ns kn st = (Ok (args, kwargs), st') ->
    List.length args = List.length ns /\
    NoDup (dict_keys kwargs) /\
    forall a, In a (dict_keys kwargs) -> In a (dict_keys kn).
Proof.
  intros R mro fuel ns kn st st' args kwargs.
  unfold Injector_fulfill, fulfill, bind.
  destruct (resolve_each (resolve R mro fuel) ns st) as [[vs| |] s1] eqn:Hv;
    try discriminate.
  destruct (resolve_keywords (resolve R mro fuel) kn [] s1) as [[kw| |] s2] eqn:Hk;
    try discriminate.
  unfold ret. intros [= <- <- <-].
  split; [exact (resolve_each_length _ _ _ _ _ Hv)|].
  destruct (resolve_keywords_keys _ _ _ _ _ _ Hk (NoDup_nil _)) as [Hn Hin].
  split; [exact Hn|]. intros a Ha. destruct (Hin a Ha) as [[]|H]; exact H.
Qed.

Lemma fulfill_shape_witness :
  List.length [VInt 42] = List.length [VStr "answer"] /\
  NoDup (dict_keys [("salute", VStr "Hello, world!")]) /\
  forall a, In a (dict_keys [("salute", VStr "Hello, world!")]) ->
            In a (dict_keys [("salute", VStr "greeting"); ("unused", VStr "error")]).
Proof.
  apply (fulfill_shape Sample.registry Sample.mro 1 [VStr "answer"]
           [("salute", VStr "greeting"); ("unused", VStr "error")] Injector_init
           (snd (Injector_fulfill Sample.registry Sample.mro 1 [VStr "answer"]
                   [("salute", VStr "greeting"); ("unused", VStr "error")]
                   Injector_init))).
  reflexivity.
Defined.

Lemma resolve_keywords_fails rec kn1 arg note kn2 kwargs st kw1 s1 e s2 :
  resolve_keywords rec kn1 kwargs st = (Ok kw1, s1) ->
  rec note s1 = (Raise e, s2) ->
  (forall x, e <> UnsetError x) ->
  resolve_keywords rec (kn1 ++ (arg, note) :: kn2) kwargs st = (Raise e, s2).
Proof.
  revert kwargs st. induction kn1 as [|[a n] kn1 IH]; intros kwargs st.
  - cbn [resolve_keywords app]. unfold ret. intros [= <- <-] Hn He. rewrite Hn.
    destruct e; try reflexivity. now destruct (He note0).
  - cbn [resolve_keywords app].
    destruct (rec n st) as [[v|e0|] st0]; try discriminate.
    + apply IH.
    + destruct e0; try discriminate. apply IH.
Qed.

(** X9 (Injector.fulfill). Only UnsetError is forgiven for a keyword note:
    any other failure of its resolution, the LookupError of a note that is
    not registered among them, ends the fulfillment with that error, and
    the keyword notes after it are not resolved. *)
Theorem fulfill_keyword_failure_propagates :
  forall (R : registries) (mro : list cls) (fuel : nat) (ns : list value)
         (kn1 kn2 : dict string value) (arg : string) (note : value)
         (st s0 s1 s2 : Injector) (args : list value) (kw1 : dict string value)
         (e : exn),
    resolve_each (resolve R mro fuel) ns st = (Ok args, s0) ->
    resolve_keywords (resolve R mro fuel) kn1 [] s0 = (Ok kw1, s1) ->
    resolve R mro fuel note s1 = (Raise e, s2) ->
    (forall x, e <> UnsetError x) ->
    Injector_fulfill R mro fuel ns (kn1 ++ (arg, note) :: kn2) st = (Raise e, s2).
Proof.
  intros R mro fuel ns kn1 kn2 arg note st s0 s1 s2 args kw1 e Hns Hk Hn He.
  unfold Injector_fulfill, fulfill, bind at 1. rewrite Hns. unfold bind at 1.
  now rewrite (resolve_keywords_fails _ kn1 arg note kn2 [] s0 kw1 s1 e s2 Hk Hn He).
Qed.

Lemma fulfill_keyword_failure_propagates_witness :
  Injector_fulfill Sample.registry Sample.mro 1 [VStr "answer"]
    [("unused", VStr "error"); ("wanted", VStr "missing"); ("late", VStr "first")]
    Injector_init =
  (Raise (LookupError (VStr "missing")),
   snd (resolve Sample.registry Sample.mro 1 (VStr "error")
          (snd (resolve Sample.registry Sample.mro 1 (VStr "answer") Injector_init)))).
Proof.
  apply (fulfill_keyword_failure_propagates Sample.registry Sample.mro 1
           [VStr "answer"] [("unused", VStr "error")] [("late", VStr "first")]
           "wanted" (VStr "missing") Injector_init
           (snd (resolve Sample.registry Sample.mro 1 (VStr "answer") Injector_init))
           (snd (resolve Sample.registry Sample.mro 1 (VStr "error")
                   (snd (resolve Sample.registry Sample.mro 1 (VStr "answer")
                           Injector_init))))
           _ [VInt 42] []).
  - reflexivity.
  - reflexivity.
  - reflexivity.
  - intros x. discriminate.
Defined.

(** ** Closing an injector, again *)

Lemma close_each_in_fuel items : fst (fst (close_each items)) <> OutOfFuel.
Proof.
  induction items as [|[k i] items IH]; [discriminate|].
  cbn [close_each]. destruct (instance_close i) as [[[]|e] i']; [|discriminate].
  destruct (close_each items) as [[r its] evs]. exact IH.
Qed.

(** X10 (Injector.close). [close] never touches [values], keeps the keys of
    [instances] in their order, and sets the [closed] flag exactly when it
    returns normally: after a close that raised, the flag is as before. It
    always ends, with a value or a Python exception. *)
Theorem close_frame :
  forall st : Injector,
    values (snd (close st)) = values st /\
    dict_keys (instances (snd (close st))) = dict_keys (instances st) /\
    closed (snd (close st)) = closed st || is_Ok (fst (close st)) /\
    fst (close st) <> OutOfFuel.
Proof.
  intros st. destruct (close_keeps st) as [Hv Hk].
  split; [exact Hv|]. split; [exact Hk|].
  unfold close. destruct (closed st) eqn:Hc.
  - cbn. rewrite Hc. split; [reflexivity | discriminate].
  - pose proof (close_each_in_fuel (instances st)) as Hf.
    destruct (close_each (instances st)) as [[r its] evs]. cbn [fst] in Hf.
    destruct r as [[]|e|]; cbn; rewrite ?Hc; split;
      try reflexivity; try discriminate. congruence.
Qed.

Lemma close_each_head k i rest :
  exists evs, snd (close_each ((k, i) :: rest)) = Closed k :: evs.
Proof.
  cbn [close_each]. destruct (instance_close i) as [[[]|e] i'].
  - destruct (close_each rest) as [[r its] evs]. now exists evs.
  - now exists [].
Qed.

(** X11 (Injector.close). After a close that raised, the injector is still
    open and holds the same providers, so that closing again starts over
    with the first provider of [instances]: that provider, closed in the
    failed attempt already, is closed a second time. *)
Theorem close_retry_closes_again :
  forall (st st' : Injector) (e : exn),
    closed st = false ->
    close st = (Raise e, st') ->
    closed st' = false /\
    exists k i rest evs,
      instances st' = (k, i) :: rest /\
      In (Closed k) (calls st') /\
      calls (snd (close st')) = calls st' ++ Closed k :: evs.
Proof.
  intros st st' e Hc Hr. unfold close in Hr. rewrite Hc in Hr.
  destruct (close_each (instances st)) as [[r its] evs] eqn:He.
  destruct r as [[]|e'|]; try discriminate. injection Hr as <- <-.
  cbn [closed]. split; [reflexivity|].
  destruct (instances st) as [|[k i] rest] eqn:Hi; [discriminate|].
  assert (exists i' rest' evs', its = (k, i') :: rest' /\ evs = Closed k :: evs')
    as (i' & rest' & evs' & -> & ->).
  { cbn [close_each] in He. destruct (instance_close i) as [[[]|e0] i0].
    - destruct (close_each rest) as [[r0 it0] ev0]. injection He as _ <- <-.
      now exists i0, it0, ev0.
    - injection He as _ <- <-. now exists i0, rest, []. }
  exists k, i', rest'. destruct (close_each_head k i' rest') as [evs2 H2].
  exists evs2. cbn [instances calls]. split; [reflexivity|]. split.
  - apply in_or_app. right. now left.
  - unfold close. cbn [closed instances calls].
    destruct (close_each ((k, i') :: rest')) as [[r2 its2] ev2]. cbn [snd] in H2.
    subst ev2. destruct r2 as [[]|e2|]; reflexivity.
Qed.

Lemma close_retry_closes_again_witness :
  closed (snd (close Sample.two_providers)) = false /\
  exists k i rest evs,
    instances (snd (close Sample.two_providers)) = (k, i) :: rest /\
    In (Closed k) (calls (snd (close Sample.two_providers))) /\
    calls (snd (close (snd (close Sample.two_providers)))) =
    calls (snd (close Sample.two_providers)) ++ Closed k :: evs.
Proof.
  apply (close_retry_closes_again Sample.two_providers
           (snd (close Sample.two_providers)) (Exception (VStr "close failed")));
    reflexivity.
Defined.

(** ** Generator providers *)

(** X12 (GeneratorProvider.close, GeneratorProvider.get). A close that
    returns leaves the generator finished for good: closing the provider
    again returns as well and changes nothing, an unnamed [get] still
    returns the value of [init], and a named [get] on a provider with name
    support raises the RuntimeError of a generator that did not yield. *)
Theorem GeneratorProvider_close_is_final :
  forall p p' : GeneratorProvider,
    GeneratorProvider_close p = (Returns tt, p') ->
    generator p' = Finished /\
    function p' = function p /\
    init_value p' = init_value p /\
    GeneratorProvider_close p' = (Returns tt, p') /\
    GeneratorProvider_get p' VNone = (Returns (init_value p), p') /\
    (forall name,
        is_None name = false ->
        support_name (function p) = true ->
        GeneratorProvider_get p' name =
        (Raises (RuntimeError "generator didn't yield"), p')).
Proof.
  intros p p'. unfold GeneratorProvider_close.
  assert (forall s1 : generator_state,
             (let (r, s2) := generator_send (function p) s1 VNone in
              match r with
              | Stops =>
                  (Returns tt,
                   {| function := function p; generator := s2;
                      init_value := init_value p |})
              | Yields _ _ =>
                  (Raises (RuntimeError "generator didn't stop"),
                   {| function := function p; generator := s2;
                      init_value := init_value p |})
              | Throws e =>
                  (Raises e,
                   {| function := function p; generator := s2;
                      init_value := init_value p |})
              end) = (Returns tt, p') ->
             p' = {| function := function p; generator := Finished;
                     init_value := init_value p |}) as Hsend.
  { intros s1. unfold generator_send. destruct s1 as [frame|].
    - destruct (send (function p) frame VNone); try discriminate. now intros [= <-].
    - now intros [= <-]. }
  intros Hc.
  assert (p' = {| function := function p; generator := Finished;
                  init_value := init_value p |}) as ->.
  { destruct (support_name (function p)).
    - destruct (generator_close (function p) (generator p)) as [[[]|e] s1];
        [|discriminate]. exact (Hsend s1 Hc).
    - exact (Hsend (generator p) Hc). }
  cbn [generator function init_value]. repeat split.
  - unfold GeneratorProvider_close. cbn [generator function init_value].
    destruct (support_name (function p)); reflexivity.
  - intros name Hn Hs. unfold GeneratorProvider_get.
    cbn [generator function init_value]. now rewrite Hn, Hs.
Qed.

Lemma GeneratorProvider_close_is_final_witness :
  GeneratorProvider_close
    {| function := Sample.greeter (VStr "Hello, world!");
       generator := Finished; init_value := VStr "Hello, world!" |} =
  (Returns tt,
   {| function := Sample.greeter (VStr "Hello, world!");
      generator := Finished; init_value := VStr "Hello, world!" |}).
Proof.
  apply (GeneratorProvider_close_is_final
           {| function := Sample.greeter (VStr "Hello, world!");
              generator := Suspended VNone; init_value := VStr "Hello, world!" |}).
  reflexivity.
Defined.

(** X13 (GeneratorProvider.get, Injector.handle_provider). On a held
    generator provider with name support, a name-qualified resolution sends
    the name to the paused generator and returns what it yields: the
    generator moves on to its next frame, the value of [init] stays, and
    nothing is written to [values]. *)
Theorem named_resolution_resumes_generator :
  forall (R : registries) (mro : list cls) (fuel : nat)
         (note b name v frame frame' : value) (d : descriptor)
         (p : GeneratorProvider) (st : Injector),
    parse_note note = Returns (b, name) ->
    is_None name = false ->
    lookup R mro b = Returns d ->
    dict_get (instances st) b = Some (GeneratorInstance p) ->
    support_name (function p) = true ->
    generator p = Suspended frame ->
    send (function p) frame name = Yields v frame' ->
    resolve R mro (S fuel) note st =
    (Ok v,
     set_instance b
       (GeneratorInstance {| function := function p; generator := Suspended frame';
                             init_value := init_value p |})
       (record (Got b [] [] (Some name)) st)).
Proof.
  intros R mro fuel note b name v frame frame' d p st Hp Hn Hl Hi Hs Hg Hsend.
  rewrite (resolve_dispatch R mro fuel note b name d st Hp (or_introl Hn) Hl).
  unfold handle_provider, bind at 1, gets. rewrite Hi.
  unfold invoke. cbn [target_annotations partial_if_annotated].
  unfold bind at 1, ret. cbn [fst snd]. rewrite Hn.
  unfold tagging_unset, call_target. rewrite Hi.
  cbn [instance_get name_or_None]. unfold GeneratorProvider_get.
  rewrite Hn, Hs, Hg. cbn [negb generator_send]. rewrite Hsend. reflexivity.
Qed.

Lemma named_resolution_resumes_generator_witness :
  fst (resolve Sample.registry Sample.mro 1 (VStr "greeting:Ann")
         (snd (Sample.resolve_in "greeting" Injector_init))) =
  Ok (VStr "Hello, Ann").
Proof.
  rewrite (named_resolution_resumes_generator Sample.registry Sample.mro 0
             (VStr "greeting:Ann") (VStr "greeting") (VStr "Ann")
             (VStr "Hello, Ann") VNone VNone
             (DGenerator (Sample.greeter (VStr "Hello, world!")))
             {| function := Sample.greeter (VStr "Hello, world!");
                generator := Suspended VNone; init_value := VStr "Hello, world!" |});
    reflexivity.
Defined.

(** ** Annotations *)

Lemma dict_set_fresh {K V} `{EqDec K} (d : dict K V) k v :
  ~ In k (dict_keys d) -> dict_set d k v = d ++ [(k, v)].
Proof.
  unfold dict_keys. induction d as [|[k0 v0] d IH]; simpl; [reflexivity|].
  intros Hn. destruct (eq_dec k k0) as [->|N]; [destruct Hn; now left|].
  rewrite IH; [reflexivity|]. intros Hin. apply Hn. now right.
Qed.

Lemma dict_keys_app {K V} (d1 d2 : dict K V) :
  dict_keys (d1 ++ d2) = dict_keys d1 ++ dict_keys d2.
Proof. unfold dict_keys. apply map_app. Qed.

Lemma dict_update_fresh {K V} `{EqDec K} (d other : dict K V) :
  NoDup (dict_keys other) ->
  (forall k, In k (dict_keys other) -> ~ In k (dict_keys d)) ->
  dict_update d other = d ++ other.
Proof.
  unfold dict_update. revert d. induction other as [|[k v] other IH]; intros d Hn Hd.
  - simpl. now rewrite app_nil_r.
  - cbn [fold_left fst snd]. cbn [dict_keys map fst] in Hn, Hd.
    apply NoDup_cons_iff in Hn as [Hk Hn].
    rewrite dict_set_fresh by (apply Hd; now left).
    rewrite IH; [now rewrite <- app_assoc | exact Hn |].
    intros k' Hk' Hin. rewrite dict_keys_app in Hin.
    apply in_app_or in Hin as [Hin|[<-|[]]].
    + apply (Hd k'); [now right | exact Hin].
    + apply Hk. exact Hk'.
Qed.

Lemma dict_get_app {K V} `{EqDec K} (d1 d2 : dict K V) k :
  dict_get (d1 ++ d2) k =
  match dict_get d1 k with Some v => Some v | None => dict_get d2 k end.
Proof.
  induction d1 as [|[k0 v0] d1 IH]; simpl; [reflexivity|].
  destruct (eq_dec k k0); [reflexivity | exact IH].
Qed.

Lemma dict_get_absent {K V} `{EqDec K} (d : dict K V) k :
  ~ In k (dict_keys d) -> dict_get d k = None.
Proof.
  intros Hn. destruct (dict_get d k) eqn:Hg; [|reflexivity].
  destruct Hn. apply dict_mem_In. unfold dict_mem. now rewrite Hg.
Qed.

Lemma combine_app_short {A B} (l1 l2 : list A) (l : list B) :
  List.length l <= List.length l1 -> combine (l1 ++ l2) l = combine l1 l.
Proof.
  revert l. induction l1 as [|a l1 IH]; intros [|b l]; simpl; intros Hl.
  - destruct l2; reflexivity.
  - lia.
  - reflexivity.
  - f_equal. apply IH. lia.
Qed.

Lemma dict_keys_combine {A B} (l1 : list A) (l2 : list B) :
  List.length l1 = List.length l2 -> dict_keys (combine l1 l2) = l1.
Proof.
  unfold dict_keys. revert l2. induction l1 as [|a l1 IH]; intros [|b l2]; simpl;
    intros Hl; try reflexivity; try discriminate.
  f_equal. apply IH. lia.
Qed.

Lemma in_keys_combine {A B} (l1 : list A) (l2 : list B) a :
  In a (dict_keys (combine l1 l2)) -> In a l1.
Proof.
  unfold dict_keys. revert l2. induction l1 as [|a1 l1 IH]; intros [|b l2]; simpl;
    try tauto.
  intros [->|Hin]; [now left | right; exact (IH _ Hin)].
Qed.

(** What the loop over the defaults leaves: the arguments without a
    default, and the others with theirs, the last one first. *)
Lemma pop_defaults_spec rk rd rest acc :
  List.length rk = List.length rd ->
  pop_defaults (rk ++ rest) rd acc =
  Returns (rev rest, dict_update acc (combine rk rd)).
Proof.
  revert rd acc. induction rk as [|a rk IH]; intros [|d rd] acc; simpl; intros Hl;
    try discriminate.
  - destruct rest; reflexivity.
  - rewrite IH by lia. reflexivity.
Qed.

Lemma named_positional_keyword in_class fn pos kws :
  get_function_arguments in_class fn = pos ++ kws ->
  List.length (argspec_defaults fn) = List.length kws ->
  NoDup kws ->
  exists keywords,
    get_named_positional_keyword_arguments in_class fn = Returns (pos, keywords) /\
    dict_keys keywords = rev kws.
Proof.
  intros Ha Hl Hn. unfold get_named_positional_keyword_arguments.
  rewrite Ha, rev_app_distr, pop_defaults_spec by (now rewrite !length_rev).
  rewrite rev_involutive. eexists. split; [reflexivity|].
  rewrite dict_update_fresh.
  - apply dict_keys_combine. now rewrite !length_rev.
  - rewrite dict_keys_combine by (now rewrite !length_rev). now apply NoDup_rev.
  - intros k _ [].
Qed.

Lemma collect_positional_given pre pos ns :
  NoDup pos ->
  (forall p, In p pos -> ~ In p (dict_keys pre)) ->
  List.length ns <= List.length pos ->
  collect_positional (pre ++ combine pos ns) pos = ns.
Proof.
  revert pre ns. induction pos as [|p pos IH]; intros pre ns Hn Hd Hl.
  - destruct ns; [reflexivity | simpl in Hl; lia].
  - apply NoDup_cons_iff in Hn as [Hp Hn]. destruct ns as [|n ns].
    + cbn [combine collect_positional]. rewrite app_nil_r.
      rewrite dict_get_absent; [reflexivity | apply Hd; now left].
    + cbn [combine collect_positional]. rewrite dict_get_app.
      rewrite (dict_get_absent pre p) by (apply Hd; now left).
      cbn [dict_get]. destruct (eq_dec p p) as [_|N]; [|congruence].
      f_equal.
      change (pre ++ (p, n) :: combine pos ns)
        with (pre ++ [(p, n)] ++ combine pos ns).
      rewrite app_assoc. apply IH; [exact Hn | | simpl in Hl; lia].
      intros q Hq Hin. rewrite dict_keys_app in Hin.
      apply in_app_or in Hin as [Hin|[<-|[]]].
      * apply (Hd q); [now right | exact Hin].
      * exact (Hp Hq).
Qed.

Lemma collect_keywords_ext a b l acc :
  (forall k, In k l -> dict_get a k = dict_get b k) ->
  collect_keywords a l acc = collect_keywords b l acc.
Proof.
  revert acc. induction l as [|k l IH]; intros acc Hl; [reflexivity|].
  cbn [collect_keywords]. rewrite (Hl k) by now left.
  destruct (dict_get b k); apply IH; intros k' Hk'; apply Hl; now right.
Qed.

(** Annotating, then collecting: the helper behind the round trip. *)
Lemma collect_after_set in_class fn pos kws ns kn :
  __annotations__ fn = [] ->
  get_function_arguments in_class fn = pos ++ kws ->
  List.length (argspec_defaults fn) = List.length kws ->
  NoDup (pos ++ kws) ->
  NoDup (dict_keys kn) ->
  (forall a, In a (dict_keys kn) -> In a kws) ->
  List.length ns <= List.length pos ->
  ns <> [] \/ kn <> [] ->
  set_annotations in_class fn ns kn =
    Returns (with_annotations fn (kn ++ combine pos ns)) /\
  collect_notes in_class (with_annotations fn (kn ++ combine pos ns)) =
    Returns {| notes := ns; keyword_notes := collect_keywords kn (rev kws) [] |}.
Proof.
  intros Hann Hargs Hdef Hnd Hkn Hin Hlen Hne.
  assert (forall p, In p pos -> ~ In p (dict_keys kn)) as Hdisj.
  { intros p Hp Hk. apply Hin in Hk. revert p Hp Hk.
    clear -Hnd. induction pos as [|q pos IH]; intros p Hp Hk; [destruct Hp|].
    cbn [app] in Hnd. apply NoDup_cons_iff in Hnd as [Hq Hnd].
    destruct Hp as [->|Hp]; [apply Hq, in_or_app; now right | exact (IH Hnd p Hp Hk)]. }
  assert (dict_update (dict_update [] kn) (combine (pos ++ kws) ns) =
          kn ++ combine pos ns) as Hupd.
  { rewrite (dict_update_fresh [] kn Hkn) by (intros k _ []). cbn [app].
    rewrite combine_app_short by exact Hlen.
    apply dict_update_fresh.
    - assert (dict_keys (combine pos ns) = firstn (List.length ns) pos) as ->.
      { clear -Hlen. unfold dict_keys. revert ns Hlen.
        induction pos as [|p pos IH]; intros [|n ns]; simpl; intros Hl;
          try reflexivity; try lia. f_equal. apply IH. lia. }
      apply NoDup_app_remove_r in Hnd.
      rewrite <- (firstn_skipn (List.length ns) pos) in Hnd.
      now apply NoDup_app_remove_r in Hnd.
    - intros k Hk. apply in_keys_combine in Hk. now apply Hdisj. }
  split.
  - unfold set_annotations. rewrite Hann. unfold check_for_extras.
    assert (forallb (mentions (get_function_arguments in_class fn)) (dict_keys kn) = true)
      as Hall.
    { apply forallb_forall. intros a Ha. unfold mentions.
      destruct (in_dec string_dec a (get_function_arguments in_class fn)) as [_|N];
        [reflexivity|]. destruct N. rewrite Hargs. apply in_or_app. right. now apply Hin. }
    rewrite Hall. rewrite Hargs.
    assert (Nat.ltb (List.length (pos ++ kws)) (List.length ns) = false) as ->.
    { apply Nat.ltb_ge. rewrite length_app. lia. }
    rewrite Hupd. now destruct (supports_extra_keywords fn).
  - unfold collect_notes, get_annotations_of. cbn [with_annotations __annotations__].
    destruct (named_positional_keyword in_class
                (with_annotations fn (kn ++ combine pos ns)) pos kws)
      as (keywords & Hk & Hkeys).
    { exact Hargs. }
    { exact Hdef. }
    { now apply NoDup_app_remove_l in Hnd. }
    rewrite Hk, Hkeys.
    assert (kn ++ combine pos ns <> []) as Hnz.
    { destruct Hne as [Hns|Hk0].
      - destruct ns as [|n ns]; [congruence|]. destruct pos as [|p pos];
          [simpl in Hlen; lia|]. intros E. apply app_eq_nil in E as [_ E]. discriminate.
      - intros E. apply app_eq_nil in E as [E _]. congruence. }
    destruct (kn ++ combine pos ns) as [|x l] eqn:E; [congruence|]. rewrite <- E.
    f_equal. f_equal.
    + apply collect_positional_given; [now apply NoDup_app_remove_r in Hnd | exact Hdisj
                                       | exact Hlen].
    + apply collect_keywords_ext. intros k Hk'. apply in_rev in Hk'.
      rewrite dict_get_app. destruct (dict_get kn k); [reflexivity|].
      apply dict_get_absent. intros Hc. apply in_keys_combine in Hc.
      clear -Hnd Hc Hk'. induction pos as [|q pos IH]; [destruct Hc|].
      cbn [app] in Hnd. apply NoDup_cons_iff in Hnd as [Hq Hnd].
      destruct Hc as [->|Hc]; [apply Hq, in_or_app; now right | exact (IH Hnd Hc)].
Qed.





Lemma collect_positional_prefix ann pos1 a pos2 :
  (forall p, In p pos1 -> dict_get ann p <> None) ->
  dict_get ann a = None ->
  collect_positional ann (pos1 ++ a :: pos2) = collect_positional ann pos1 /\
  List.length (collect_positional ann pos1) = List.length pos1.
Proof.
  intros Hall Ha. induction pos1 as [|p pos1 IH].
  - cbn [app collect_positional]. now rewrite Ha.
  - cbn [app collect_positional].
    destruct (dict_get ann p) as [n|] eqn:Hp; [|destruct (Hall p); [now left | exact Hp]].
    destruct IH as [IH1 IH2]; [intros q Hq; apply Hall; now right|].
    split; [now rewrite IH1 | cbn [List.length]; now rewrite IH2].
Qed.

(** X16 (collect_notes). Positional notes are collected up to the first
    argument without an annotation: whatever annotations the positional
    arguments after that one carry, they are left out. *)
Theorem collect_notes_stops_at_gap :
  forall (in_class : bool) (fn : function_object) (pos1 pos2 : list string)
         (a : string) (keywords : dict string value),
    get_named_positional_keyword_arguments in_class fn =
      Returns (pos1 ++ a :: pos2, keywords) ->
    (forall p, In p pos1 -> dict_get (__annotations__ fn) p <> None) ->
    dict_get (__annotations__ fn) a = None ->
    __annotations__ fn <> [] ->
    exists an,
      collect_notes in_class fn = Returns an /\
      notes an = collect_positional (__annotations__ fn) pos1 /\
      List.length (notes an) = List.length pos1.
Proof.
  intros in_class fn pos1 pos2 a keywords Hk Hall Ha Hne.
  unfold collect_notes, get_annotations_of. rewrite Hk.
  destruct (__annotations__ fn) as [|x l] eqn:E; [congruence|]. rewrite <- E in *.
  eexists. split; [reflexivity|]. cbn [notes].
  destruct (collect_positional_prefix _ pos1 a pos2 Hall Ha) as [H1 H2].
  split; [exact H1 | now rewrite H1].
Qed.

Lemma collect_notes_stops_at_gap_witness :
  exists an,
    collect_notes false
      (with_annotations SampleFunctions.f [("b", VStr "y"); ("c", VStr "u")]) =
    Returns an /\
    notes an = [] /\ List.length (notes an) = 0%nat.
Proof.
  apply (collect_notes_stops_at_gap false
           (with_annotations SampleFunctions.f [("b", VStr "y"); ("c", VStr "u")])
           [] ["b"] "a" [("d", VInt 2); ("c", VInt 1)]).
  - reflexivity.
  - intros p [].
  - reflexivity.
  - discriminate.
Defined.

Lemma combine_nil_r {A B} (l : list A) : combine l (@nil B) = [].
Proof. destruct l; reflexivity. Qed.

(** X17 (annotate, set_annotations, has_annotations, Injector.apply).
    Annotating with no notes at all succeeds and leaves the callable
    without annotations: [has_annotations] is false for it, it can be
    annotated again, and applying it through an injector raises the
    AttributeError of [get_annotations] without touching the injector. *)
Theorem annotate_nothing_leaves_unannotated :
  forall (in_class : bool) (fn : function_object),
    __annotations__ fn = [] ->
    annotate in_class [] [] fn = Returns (with_annotations fn []) /\
    has_annotations (with_annotations fn []) = false /\
    (forall ns kn,
        set_annotations in_class (with_annotations fn []) ns kn =
        set_annotations in_class fn ns kn) /\
    (forall rec in_class' body st,
        Injector_apply rec in_class' (with_annotations fn []) body st =
        (Raise (AttributeError "does not have annotations"), st)).
Proof.
  intros in_class fn Hann. split; [|split; [reflexivity | split]].
  - unfold annotate, set_annotations. rewrite Hann.
    unfold check_for_extras. cbn [dict_keys map forallb].
    rewrite combine_nil_r. now destruct (supports_extra_keywords fn).
  - intros ns kn. unfold set_annotations. rewrite Hann. reflexivity.
  - intros rec in_class' body st. reflexivity.
Qed.

Lemma annotate_nothing_leaves_unannotated_witness :
  has_annotations (with_annotations SampleFunctions.f []) = false.
Proof.
  apply (annotate_nothing_leaves_unannotated false SampleFunctions.f). reflexivity.
Defined.

Lemma collect_keywords_none l acc : collect_keywords [] l acc = acc.
Proof. induction l as [|k l IH]; [reflexivity | exact IH]. Qed.

(** X18 (annotate, Injector.apply, Injector.prepare, collect_notes). A
    function annotated with positional notes and applied through an
    injector is called with the values of those notes, resolved in order,
    and with no keyword argument; when the resolution of one of the notes
    fails, the function is not called at all and the error is the result. *)
Theorem apply_annotated_function :
  forall (R : registries) (mro : list cls) (fuel : nat) (in_class : bool)
         (fn : function_object) (pos kws : list string) (ns : list value),
    __annotations__ fn = [] ->
    get_function_arguments in_class fn = pos ++ kws ->
    List.length (argspec_defaults fn) = List.length kws ->
    NoDup (pos ++ kws) ->
    List.length ns <= List.length pos ->
    ns <> [] ->
    exists fn',
      annotate in_class ns [] fn = Returns fn' /\
      (forall body st vs s1,
          resolve_each (resolve R mro fuel) ns st = (Ok vs, s1) ->
          Injector_apply (resolve R mro fuel) in_class fn' body st =
          lift (body vs []) s1) /\
      (forall body st e s1,
          resolve_each (resolve R mro fuel) ns st = (Raise e, s1) ->
          Injector_apply (resolve R mro fuel) in_class fn' body st = (Raise e, s1)).
Proof.
  intros R mro fuel in_class fn pos kws ns H1 H2 H3 H4 H7 H8.
  destruct (collect_after_set in_class fn pos kws ns [] H1 H2 H3 H4 (NoDup_nil _))
    as [Hs Hc]; [intros a [] | exact H7 | now left |].
  rewrite collect_keywords_none in Hc.
  eexists. split; [exact Hs|]. split.
  - intros body st vs s1 Hr.
    unfold Injector_apply, Injector_prepare, bind at 1, bind at 1. rewrite Hc.
    cbn [lift ret notes keyword_notes]. unfold fulfill, bind at 1. rewrite Hr.
    reflexivity.
  - intros body st e s1 Hr.
    unfold Injector_apply, Injector_prepare, bind at 1, bind at 1. rewrite Hc.
    cbn [lift ret notes keyword_notes]. unfold fulfill, bind at 1. rewrite Hr.
    reflexivity.
Qed.

Lemma apply_annotated_function_witness :
  exists fn',
    annotate false [VStr "answer"; VStr "greeting"] [] SampleFunctions.f = Returns fn' /\
    fst (Injector_apply (resolve Sample.registry Sample.mro 1) false fn'
           SampleFunctions.f_body Injector_init) =
    Ok (VTuple [VInt 42; VStr "Hello, world!"]).
Proof.
  destruct (apply_annotated_function Sample.registry Sample.mro 1 false
              SampleFunctions.f ["a"; "b"] ["c"; "d"] [VStr "answer"; VStr "greeting"])
    as (fn' & Ha & Hok & _).
  - reflexivity.
  - reflexivity.
  - reflexivity.
  - repeat constructor; simpl; intuition discriminate.
  - simpl. lia.
  - discriminate.
  - exists fn'. split; [exact Ha|].
    rewrite (Hok SampleFunctions.f_body Injector_init [VInt 42; VStr "Hello, world!"]
               (snd (resolve_each (resolve Sample.registry Sample.mro 1)
                       [VStr "answer"; VStr "greeting"] Injector_init)));
      reflexivity.
Defined.

(** ** Decorations, again *)

Lemma decorate_own_other_key c note fn mode D D' b n c' b' n' :
  decorate c note fn mode D = Returns D' ->
  parse_note note = Returns (b, n) ->
  (c', b', n') <> (c, b, n) ->
  own_decorations D' c' b' n' = own_decorations D c' b' n'.
Proof.
  intros Hd Hp Hk. destruct (eq_dec c c') as [<-|Hc].
  - rewrite (decorate_Returns c note fn mode D D' b n Hd Hp).
    unfold own_decorations at 1 3. rewrite dict_get_set_same.
    rewrite dict_get_set_other by congruence.
    destruct (dict_get D c); reflexivity.
  - exact (decorate_own_other c note fn mode D D' c' b' n' Hd Hc).
Qed.

(** X19 (DecoratingInjector.decorate, decorators_iter). A decoration is
    registered for one key of one class: for every other base, and for the
    same base under another name or under no name, the decorations that a
    resolution goes through are what they were, whatever the class of the
    injector. *)
Theorem decorate_keeps_other_keys :
  forall (c : cls) (note b n b' n' : value) (fn : callable) (mode : string)
         (D D' : decorators) (mro : list cls),
    decorate c note fn mode D = Returns D' ->
    parse_note note = Returns (b, n) ->
    (b', n') <> (b, n) ->
    decorators_iter D' mro b' n' = decorators_iter D mro b' n'.
Proof.
  intros c note b n b' n' fn mode D D' mro Hd Hp Hk. unfold decorators_iter.
  induction (rev mro) as [|c' l IH]; [reflexivity|]. cbn [flat_map]. rewrite IH.
  f_equal. apply (decorate_own_other_key c note fn mode D D' b n c' b' n' Hd Hp).
  congruence.
Qed.

Lemma decorate_keeps_other_keys_witness :
  decorators_iter
    (SampleDecorations.out
       (decorate "TestInjector" (VStr "genie:foo") SampleDecorations.double_it DECORATE []))
    ["TestInjector"; "object"] (VStr "genie") (VStr "bar") = [].
Proof.
  rewrite (decorate_keeps_other_keys "TestInjector" (VStr "genie:foo") (VStr "genie")
             (VStr "foo") (VStr "genie") (VStr "bar") SampleDecorations.double_it
             DECORATE []);
    [reflexivity | reflexivity | reflexivity | discriminate].
Defined.

(** X20 (DecoratingInjector.decorate, configure). Registration keeps the
    registries well formed: whatever is registered through [decorate] is in
    decorate mode or in configure mode, and a configure-mode step is only
    ever registered for an unnamed key, so that none is applied to the value
    of a name-qualified resolution. *)
Theorem decorate_keeps_well_moded :
  forall (c : cls) (note : value) (fn : callable) (mode : string) (D D' : decorators),
    well_moded D ->
    decorate c note fn mode D = Returns D' ->
    well_moded D' /\
    forall mro b n fn',
      In (CONFIGURE, fn') (decorators_iter D' mro b n) -> n = VNone.
Proof.
  intros c note fn mode D D' Hw Hd.
  assert (well_moded D') as Hw'.
  { pose proof Hd as Hd0. unfold decorate in Hd.
    destruct (String.eqb mode DECORATE) eqn:Hm1.
    - apply String.eqb_eq in Hm1. cbn [orb negb] in Hd.
      destruct (parse_note note) as [[b n]|e] eqn:Hp; [|discriminate].
      intros c' b' n' mode' fn' Hin.
      destruct (eq_dec (c', b', n') (c, b, n)) as [E|N].
      + injection E as -> -> ->.
        rewrite (decorate_own_same c note fn mode D D' b n Hd0 Hp) in Hin.
        apply in_app_or in Hin as [Hin|[[= <- <-]|[]]]; [exact (Hw _ _ _ _ _ Hin)|].
        now left.
      + rewrite (decorate_own_other_key c note fn mode D D' b n c' b' n' Hd0 Hp N) in Hin.
        exact (Hw _ _ _ _ _ Hin).
    - destruct (String.eqb mode CONFIGURE) eqn:Hm2; [|discriminate].
      apply String.eqb_eq in Hm2. cbn [orb negb andb] in Hd.
      destruct (parse_note note) as [[b n]|e] eqn:Hp; [|discriminate].
      destruct (is_None n) eqn:Hn; [|discriminate].
      intros c' b' n' mode' fn' Hin.
      destruct (eq_dec (c', b', n') (c, b, n)) as [E|N].
      + injection E as -> -> ->.
        rewrite (decorate_own_same c note fn mode D D' b n Hd0 Hp) in Hin.
        apply in_app_or in Hin as [Hin|[[= <- <-]|[]]]; [exact (Hw _ _ _ _ _ Hin)|].
        right. split; [exact Hm2|]. destruct n; try discriminate. reflexivity.
      + rewrite (decorate_own_other_key c note fn mode D D' b n c' b' n' Hd0 Hp N) in Hin.
        exact (Hw _ _ _ _ _ Hin). }
  split; [exact Hw'|].
  intros mro b n fn' Hin. unfold decorators_iter in Hin.
  apply in_flat_map in Hin as (c' & _ & Hin).
  destruct (Hw' _ _ _ _ _ Hin) as [E|[_ E]]; [discriminate | exact E].
Qed.

Lemma decorate_keeps_well_moded_witness :
  well_moded
    (SampleDecorations.out
       (configure "TestInjector" (VStr "it") SampleDecorations.ignore_it [])).
Proof.
  apply (decorate_keeps_well_moded "TestInjector" (VStr "it")
           SampleDecorations.ignore_it CONFIGURE []).
  - intros c b n mode fn [].
  - reflexivity.
Defined.

(** X21 (DecoratingInjector.decorators_apply, decorators_iter).
    [decorators_apply] returns only for a key without decorations: when no
    class of the injector's hierarchy has an entry for the key, the value
    comes back as it went in and the injector is untouched; when one class
    has an entry, whatever its mode, the result is the AttributeError of
    [self.has_annotations], before any step is called. *)
Theorem decorators_apply_returns_only_undecorated :
  forall (rec : value -> M value) (mro : list cls) (D : decorators)
         (b n v : value) (st : Injector),
    ((forall c, In c mro -> own_decorations D c b n = []) ->
     decorators_apply rec mro D b n v st = (Ok v, st)) /\
    (forall c, In c mro -> own_decorations D c b n <> [] ->
     decorators_apply rec mro D b n v st =
     (Raise (no_attribute mro "has_annotations"), st)).
Proof.
  intros rec mro D b n v st. unfold decorators_apply, decorators_iter. split.
  - intros Hnone. rewrite flat_map_nil; [reflexivity|].
    intros c Hc. apply Hnone. now apply in_rev.
  - intros c Hc Hsome. apply apply_decorations_raises.
    apply (flat_map_not_nil _ _ c); [now apply in_rev in Hc | exact Hsome].
Qed.

Lemma decorators_apply_returns_only_undecorated_witness :
  decorators_apply (resolve [] SampleDecorations.sub_mro 1) SampleDecorations.sub_mro
    SampleDecorations.nested (VStr "other") VNone (VStr "abc") Injector_init =
  (Ok (VStr "abc"), Injector_init) /\
  decorators_apply (resolve [] SampleDecorations.sub_mro 1) SampleDecorations.sub_mro
    SampleDecorations.nested (VStr "it") VNone (VStr "abc") Injector_init =
  (Raise (AttributeError "'SubTestInjector' object has no attribute 'has_annotations'"),
   Injector_init).
Proof.
  split.
  - apply (decorators_apply_returns_only_undecorated
             (resolve [] SampleDecorations.sub_mro 1) SampleDecorations.sub_mro
             SampleDecorations.nested (VStr "other") VNone (VStr "abc") Injector_init).
    intros c Hc. simpl in Hc.
    repeat (destruct Hc as [<- | Hc]; [reflexivity|]). destruct Hc.
  - apply (proj2 (decorators_apply_returns_only_undecorated
             (resolve [] SampleDecorations.sub_mro 1) SampleDecorations.sub_mro
             SampleDecorations.nested (VStr "it") VNone (VStr "abc") Injector_init)
             "TestInjector").
    + simpl. right. now left.
    + discriminate.
Defined.

(** X22 (DecoratingInjector.decorate, decorators_apply). A registration
    that succeeds on a class of the injector's hierarchy takes the key out
    of use: from then on applying the decorations of that key raises,
    whatever was or was not registered for it before. *)
Theorem decorate_disables_key :
  forall (rec : value -> M value) (mro : list cls) (c : cls) (note b n v : value)
         (fn : callable) (mode : string) (D D' : decorators) (st : Injector),
    In c mro ->
    parse_note note = Returns (b, n) ->
    decorate c note fn mode D = Returns D' ->
    decorators_apply rec mro D' b n v st =
    (Raise (no_attribute mro "has_annotations"), st).
Proof.
  intros rec mro c note b n v fn mode D D' st Hc Hp Hd.
  unfold decorators_apply. apply apply_decorations_raises.
  unfold decorators_iter. apply (flat_map_not_nil _ _ c); [now apply in_rev in Hc|].
  rewrite (decorate_own_same c note fn mode D D' b n Hd Hp).
  destruct (own_decorations D c b n); discriminate.
Qed.

Lemma decorate_disables_key_witness :
  decorators_apply (resolve [] SampleDecorations.sub_mro 1) SampleDecorations.sub_mro
    (SampleDecorations.out
       (configure "DecoratingInjector" (VStr "it") SampleDecorations.ignore_it []))
    (VStr "it") VNone (VStr "abc") Injector_init =
  (Raise (AttributeError "'SubTestInjector' object has no attribute 'has_annotations'"),
   Injector_init).
Proof.
  apply (decorate_disables_key (resolve [] SampleDecorations.sub_mro 1)
           SampleDecorations.sub_mro "DecoratingInjector" (VStr "it") (VStr "it") VNone
           (VStr "abc") SampleDecorations.ignore_it CONFIGURE []).
  - simpl. right. right. now left.
  - reflexivity.
  - reflexivity.
Defined.

(** X23 (DecoratingInjector._handle_provider). [_handle_provider] never
    gets to the provider. With a provider held for the base it stops at
    [self.partial_regardless]; without one it stops at
    [self.has_annotations] when a class is registered and at
    [self.apply_regardless] otherwise. None of these is a method of the
    injector, so whatever they would do the result is an AttributeError,
    and nothing is stored, called or decorated. *)
Theorem handle_provider_of_decorating_injector_raises :
  forall (rec : value -> M value) (mro : list cls)
         (prepare_callable : annotations -> M (list value * dict string value))
         (apply_regardless : descriptor -> M instance)
         (partial_regardless : instance -> M (list value * dict string value))
         (D : decorators) (d : descriptor) (note b name : value) (st : Injector),
    _handle_provider rec mro prepare_callable apply_regardless partial_regardless
      D d note b name st =
    (Raise (no_attribute mro
              (match dict_get (instances st) b with
               | Some _ => "partial_regardless"
               | None =>
                   match d with
                   | DClass _ => "has_annotations"
                   | _ => "apply_regardless"
                   end
               end)), st).
Proof.
  intros rec mro pc ar pr D d note b name st.
  unfold _handle_provider, bind at 1, gets. unfold bind at 1.
  destruct (dict_get (instances st) b) as [i|].
  - unfold ret, bind at 1. now rewrite self_call_unbound by reflexivity.
  - unfold bind at 1, new_provider.
    destruct d as [c|g|f]; now rewrite self_call_unbound by reflexivity.
Qed.

(** ** What resolution leaves alone *)

(** X24 (Injector.resolve, Injector.handle_provider, Injector.fulfill,
    Injector.close). On an injector in use, with the registries as they
    are, a cached unnamed value is never replaced: whatever is resolved,
    fulfilled or closed afterwards, the base keeps the value it has. *)
Theorem cached_value_is_stable :
  forall (R : registries) (mro : list cls) (st : Injector) (b v : value),
    reachable R mro st ->
    dict_get (values st) b = Some v ->
    (forall fuel note,
        dict_get (values (snd (resolve R mro fuel note st))) b = Some v) /\
    (forall fuel ns kn,
        dict_get (values (snd (Injector_fulfill R mro fuel ns kn st))) b = Some v) /\
    dict_get (values (snd (close st))) b = Some v.
Proof.
  intros R mro st b v Hr Hv.
  assert (settled R mro (Some (b, v)) st) as Hs.
  { split; [now apply reachable_generators_held|]. now intros b0 v0 [= <- <-]. }
  split; [|split].
  - intros fuel note.
    destruct (settles_resolve R mro (Some (b, v)) fuel note st) as [_ H].
    destruct (H Hs) as [_ HC]. now apply HC.
  - intros fuel ns kn.
    destruct (settles_fulfill R mro (Some (b, v)) fuel ns kn st) as [_ H].
    destruct (H Hs) as [_ HC]. now apply HC.
  - destruct (settles_close R mro (Some (b, v)) st) as [_ H].
    destruct (H Hs) as [_ HC]. now apply HC.
Qed.

Lemma cached_value_is_stable_witness :
  dict_get
    (values (snd (resolve Sample.registry Sample.mro 2 (VStr "relay")
                    (snd (Sample.resolve_in "answer" Injector_init)))))
    (VStr "answer") = Some (VInt 42).
Proof.
  apply (cached_value_is_stable Sample.registry Sample.mro
           (snd (Sample.resolve_in "answer" Injector_init)) (VStr "answer") (VInt 42)).
  - apply reachable_resolve. apply reachable_init.
  - reflexivity.
Defined.

Lemma oblivious_closed {A} (m : M A) st :
  oblivious m -> closed (snd (m st)) = closed st.
Proof.
  intros Hm. pose proof (Hm (closed st) st) as H.
  assert (set_closed (closed st) st = st) as E by (destruct st; reflexivity).
  rewrite E in H. rewrite H at 1. reflexivity.
Qed.

(** X25 (Injector.resolve, Injector.fulfill). Resolution never sets or
    clears the [closed] flag: an open injector stays open and a closed one
    stays closed through every resolution and every fulfillment; only
    [close] changes the flag. *)
Theorem resolution_keeps_closed_flag :
  forall (R : registries) (mro : list cls) (fuel : nat) (st : Injector),
    (forall note, closed (snd (resolve R mro fuel note st)) = closed st) /\
    (forall ns kn, closed (snd (Injector_fulfill R mro fuel ns kn st)) = closed st).
Proof.
  intros R mro fuel st. split.
  - intros note. apply oblivious_closed. apply oblivious_resolve.
  - intros ns kn. apply oblivious_closed.
    apply (oblivious_partial (resolve R mro fuel) (oblivious_resolve R mro fuel)
             (Some {| notes := ns; keyword_notes := kn |})).
Qed.

(** ** Failed materializations *)

(** X26 (Injector.handle_provider, Injector.init_generator,
    GeneratorProvider.init). A provider that cannot be materialized is not
    kept: when the generator function of a base not yet held returns
    without yielding, or raises, before its first [yield], the resolution
    raises (the RuntimeError of a generator that did not yield, or the error
    raised) and neither [instances] nor [values] changes, so that the next
    resolution of the base runs the generator function again. *)
Theorem failed_init_is_not_kept :
  forall (R : registries) (mro : list cls) (fuel : nat) (g : generator_function)
         (note b name : value) (st : Injector) (e : exn),
    parse_note note = Returns (b, name) ->
    lookup R mro b = Returns (DGenerator g) ->
    dict_get (instances st) b = None ->
    dict_get (values st) b = None ->
    gen_annotations g = None ->
    match start g [] [] with
    | Yields _ _ => False
    | Stops => e = RuntimeError "generator didn't yield"
    | Throws e' => e = e'
    end ->
    resolve R mro (S fuel) note st = (Raise e, record (Initialized b [] []) st) /\
    forall fuel',
      resolve R mro (S fuel') note (record (Initialized b [] []) st) =
      (Raise e, record (Initialized b [] []) (record (Initialized b [] []) st)).
Proof.
  intros R mro fuel g note b name st e Hp Hl Hi Hv Ha Hs.
  assert (forall f s,
             dict_get (instances s) b = None -> dict_get (values s) b = None ->
             resolve R mro (S f) note s = (Raise e, record (Initialized b [] []) s))
    as Hgen.
  { intros f s Hi' Hv'.
    rewrite (resolve_dispatch R mro f note b name (DGenerator g) s Hp
               (or_intror Hv') Hl).
    unfold handle_provider, bind at 1, gets. rewrite Hi'.
    unfold bind at 1. rewrite (init_generator_plain _ b g s Ha).
    unfold GeneratorProvider_init.
    destruct (start g [] []) as [v frame| |e']; [destruct Hs | subst e | subst e];
      reflexivity. }
  split; [now apply Hgen|]. intros fuel'. now apply Hgen.
Qed.

Lemma failed_init_is_not_kept_witness :
  resolve Sample.registry Sample.mro 1 (VStr "pending") Injector_init =
  (Raise (UnsetError VNone), record (Initialized (VStr "pending") [] []) Injector_init).
Proof.
  apply (failed_init_is_not_kept Sample.registry Sample.mro 0 Sample.unset_generator
           (VStr "pending") (VStr "pending") VNone Injector_init (UnsetError VNone));
    reflexivity.
Defined.

(** ** Positional notes for arguments with a default *)

Lemma combine_app_same {A B} (l1 l2 : list A) (m1 m2 : list B) :
  List.length l1 = List.length m1 ->
  combine (l1 ++ l2) (m1 ++ m2) = combine l1 m1 ++ combine l2 m2.
Proof.
  revert m1. induction l1 as [|a l1 IH]; intros [|b m1]; simpl; intros Hl;
    try discriminate; [reflexivity|].
  f_equal. apply IH. lia.
Qed.

Lemma collect_positional_all pre pos ns suf :
  NoDup pos ->
  (forall p, In p pos -> ~ In p (dict_keys pre)) ->
  List.length ns = List.length pos ->
  collect_positional (pre ++ combine pos ns ++ suf) pos = ns.
Proof.
  revert pre ns. induction pos as [|p pos IH]; intros pre ns Hn Hd Hl.
  - destruct ns; [reflexivity | discriminate].
  - apply NoDup_cons_iff in Hn as [Hp Hn]. destruct ns as [|n ns]; [discriminate|].
    cbn [combine collect_positional app]. rewrite dict_get_app.
    rewrite (dict_get_absent pre p) by (apply Hd; now left).
    cbn [dict_get]. destruct (eq_dec p p) as [_|N]; [|congruence].
    f_equal.
    change (pre ++ (p, n) :: combine pos ns ++ suf)
      with (pre ++ [(p, n)] ++ combine pos ns ++ suf).
    rewrite app_assoc. apply IH; [exact Hn | | simpl in Hl; lia].
    intros q Hq Hin. rewrite dict_keys_app in Hin.
    apply in_app_or in Hin as [Hin|[<-|[]]].
    + apply (Hd q); [now right | exact Hin].
    + exact (Hp Hq).
Qed.

(** X27 (set_annotations, collect_notes). Positional notes beyond the
    arguments without a default annotate the arguments with a default, and
    are collected as keyword notes: such a dependency is then resolved as a
    keyword dependency, after the positional ones. *)
Theorem positional_notes_spill_to_keywords :
  forall (in_class : bool) (fn : function_object) (pos kws : list string)
         (ns1 ns2 : list value),
    __annotations__ fn = [] ->
    get_function_arguments in_class fn = pos ++ kws ->
    List.length (argspec_defaults fn) = List.length kws ->
    NoDup (pos ++ kws) ->
    List.length ns1 = List.length pos ->
    List.length ns2 <= List.length kws ->
    ns1 ++ ns2 <> [] ->
    exists fn',
      set_annotations in_class fn (ns1 ++ ns2) [] = Returns fn' /\
      collect_notes in_class fn' =
      Returns {| notes := ns1;
                 keyword_notes := collect_keywords (combine kws ns2) (rev kws) [] |}.
Proof.
  intros in_class fn pos kws ns1 ns2 Hann Hargs Hdef Hnd Hl1 Hl2 Hne.
  assert (dict_update (dict_update [] []) (combine (pos ++ kws) (ns1 ++ ns2)) =
          combine pos ns1 ++ combine kws ns2) as Hupd.
  { rewrite combine_app_same by (symmetry; exact Hl1).
    apply (dict_update_fresh [] (combine pos ns1 ++ combine kws ns2)); [|intros k _ []].
    rewrite dict_keys_app, (dict_keys_combine pos ns1) by (symmetry; exact Hl1).
    apply NoDup_app.
    - now apply NoDup_app_remove_r in Hnd.
    - assert (dict_keys (combine kws ns2) = firstn (List.length ns2) kws) as ->.
      { clear -Hl2. unfold dict_keys. revert ns2 Hl2.
        induction kws as [|p kws IH]; intros [|n ns]; simpl; intros Hl;
          try reflexivity; try lia. f_equal. apply IH. lia. }
      apply NoDup_app_remove_l in Hnd.
      rewrite <- (firstn_skipn (List.length ns2) kws) in Hnd.
      now apply NoDup_app_remove_r in Hnd.
    - intros a Ha Hk. apply in_keys_combine in Hk.
      clear -Hnd Ha Hk. induction pos as [|q pos IH]; [destruct Ha|].
      cbn [app] in Hnd. apply NoDup_cons_iff in Hnd as [Hq Hnd].
      destruct Ha as [->|Ha]; [apply Hq, in_or_app; now right | exact (IH Hnd Ha)]. }
  exists (with_annotations fn (combine pos ns1 ++ combine kws ns2)). split.
  - unfold set_annotations. rewrite Hann. unfold check_for_extras.
    cbn [dict_keys map forallb]. rewrite Hargs.
    assert (Nat.ltb (List.length (pos ++ kws)) (List.length (ns1 ++ ns2)) = false) as ->.
    { apply Nat.ltb_ge. rewrite !length_app. lia. }
    rewrite Hupd. now destruct (supports_extra_keywords fn).
  - unfold collect_notes, get_annotations_of. cbn [with_annotations __annotations__].
    destruct (named_positional_keyword in_class
                (with_annotations fn (combine pos ns1 ++ combine kws ns2)) pos kws)
      as (keywords & Hk & Hkeys).
    { exact Hargs. }
    { exact Hdef. }
    { now apply NoDup_app_remove_l in Hnd. }
    rewrite Hk, Hkeys.
    assert (combine pos ns1 ++ combine kws ns2 <> []) as Hnz.
    { intros E. apply app_eq_nil in E as [E1 E2]. apply Hne.
      destruct ns1 as [|n ns1].
      - destruct ns2 as [|n ns2]; [reflexivity|].
        destruct kws; [simpl in Hl2; lia | discriminate].
      - destruct pos; [discriminate | discriminate]. }
    destruct (combine pos ns1 ++ combine kws ns2) as [|x l] eqn:E; [congruence|].
    rewrite <- E. f_equal. f_equal.
    + apply (collect_positional_all [] pos ns1 (combine kws ns2));
        [now apply NoDup_app_remove_r in Hnd | intros p _ [] | exact Hl1].
    + apply collect_keywords_ext. intros k Hk'. apply in_rev in Hk'.
      rewrite dict_get_app. rewrite dict_get_absent; [reflexivity|].
      intros Hc. apply in_keys_combine in Hc.
      clear -Hnd Hc Hk'. induction pos as [|q pos IH]; [destruct Hc|].
      cbn [app] in Hnd. apply NoDup_cons_iff in Hnd as [Hq Hnd].
      destruct Hc as [->|Hc]; [apply Hq, in_or_app; now right | exact (IH Hnd Hc)].
Qed.

Lemma positional_notes_spill_to_keywords_witness :
  exists fn',
    set_annotations false SampleFunctions.f [VStr "x"; VStr "y"; VStr "z"] [] =
      Returns fn' /\
    collect_notes false fn' =
    Returns {| notes := [VStr "x"; VStr "y"]; keyword_notes := [("c", VStr "z")] |}.
Proof.
  apply (positional_notes_spill_to_keywords false SampleFunctions.f
           ["a"; "b"] ["c"; "d"] [VStr "x"; VStr "y"] [VStr "z"]).
  - reflexivity.
  - reflexivity.
  - reflexivity.
  - repeat constructor; simpl; intuition discriminate.
  - reflexivity.
  - simpl. lia.
  - discriminate.
Defined.
